(** * ProductPolish AI: the batch-refinement workflow of [App.tsx] and the
    [refineProductImage] service, embedded and verified.

    The development follows the two source files:
    - [services/geminiService.ts] ([refineProductImage]) and [types.ts]
      ([BatchItem], [AspectRatio]);
    - [App.tsx] ([handleImagesSelect], [handleDeleteItem], [processQueue]
      with its inner [processItem], and the Remove / Clear buttons).

    Asynchronous code is embedded as a finite tree of effects ([async]):
    React state writes, the outbound [generateContent] call, the [await] on
    its promise, [console.error], and JavaScript exceptions.  A machine
    ([run]) executes such a tree against the React store, an oracle that
    settles every outbound call, and an environment that lets the user act
    on the page while a call is awaited. *)

From stdpp Require Import base tactics option list strings.
From Stdlib Require Import Ascii ZArith Lia.

(** ** JavaScript string primitives used by the service *)

Module Js.

(** [s.split(sep)] for a one-character separator. *)
Fixpoint split (sep : ascii) (s : string) : list string :=
  match s with
  | EmptyString => [EmptyString]
  | String c s' =>
      if Ascii.eqb c sep then EmptyString :: split sep s'
      else match split sep s' with
           | [] => [String c EmptyString]
           | w :: ws => String c w :: ws
           end
  end.

(** [s.indexOf(pat)], with [-1] when [pat] does not occur. *)
Definition indexOf (pat s : string) : Z :=
  match String.index 0 pat s with
  | Some n => Z.of_nat n
  | None => (-1)%Z
  end.

(** [s.substring(a, b)]: both bounds are clamped to [0 .. length] and
    swapped when they come in the wrong order. *)
Definition substring (s : string) (a b : Z) : string :=
  let len := Z.of_nat (String.length s) in
  let a' := Z.max 0 (Z.min a len) in
  let b' := Z.max 0 (Z.min b len) in
  let lo := Z.min a' b' in
  let hi := Z.max a' b' in
  String.substring (Z.to_nat lo) (Z.to_nat (hi - lo)) s.

(** Truthiness of a string: only the empty string is falsy. *)
Definition truthy (s : string) : bool :=
  match s with EmptyString => false | String _ _ => true end.

(** [a || b] on strings. *)
Definition or_else (a b : string) : string :=
  if truthy a then a else b.

Definition nl : string := String "010"%char EmptyString.

(** The text of a template literal, given line by line. *)
Definition lines (ls : list string) : string := String.concat nl ls.

End Js.

(** ** types.ts *)

(** ['idle' | 'processing' | 'success' | 'error']; the last one is written
    [error_] here, [error] being the name of a property below. *)
Inductive Status : Type := idle | processing | success | error_.

Global Instance Status_eq_dec : EqDecision Status.
Proof. solve_decision. Defined.

(** The wire value of a status, as the string literal in the source. *)
Definition Status_value (s : Status) : string :=
  match s with
  | idle => "idle" | processing => "processing"
  | success => "success" | error_ => "error"
  end.

Record BatchItem : Type := mkBatchItem {
  id : string;
  original : string;
  generated : option string;          (* string | null *)
  status : Status;
  errorMessage : option string;       (* errorMessage?: string *)
  error : option string               (* not in the interface: the property
                                         [processItem] writes as [undefined] *)
}.

Inductive AspectRatio : Type := SQUARE | PORTRAIT | LANDSCAPE | WIDE.

Global Instance AspectRatio_eq_dec : EqDecision AspectRatio.
Proof. solve_decision. Defined.

Definition AspectRatio_value (r : AspectRatio) : string :=
  match r with
  | SQUARE => "1:1" | PORTRAIT => "3:4" | LANDSCAPE => "4:3" | WIDE => "16:9"
  end.

(** ** The part of the @google/genai interface the service touches *)

Record Blob : Type := mkBlob {
  data : option string;
  mimeType : option string
}.

Record Part : Type := mkPart {
  inlineData : option Blob;
  text : option string
}.

Record Content : Type := mkContent { parts : option (list Part) }.

Record Candidate : Type := mkCandidate { content : option Content }.

Record GenerateContentResponse : Type := mkResponse {
  candidates : option (list Candidate)
}.

Record GenerateContentParameters : Type := mkParameters {
  model : string;
  contents : list Part;               (* contents.parts *)
  imageConfig_aspectRatio : AspectRatio   (* config.imageConfig.aspectRatio *)
}.

(** A thrown value: an object whose [message] may be missing. *)
Record JsError : Type := mkJsError {
  name : string;
  message : option string
}.

Definition Error (msg : string) : JsError := mkJsError "Error" (Some msg).

(** Reading a property of [undefined]; the wording is the engine's. *)
Definition TypeError (prop : string) : JsError :=
  mkJsError "TypeError"
    (Some ("Cannot read properties of undefined (reading '" +:+ prop +:+ "')")).

(** How an outbound [generateContent] promise settles. *)
Inductive Settled : Type :=
| Fulfilled (response : GenerateContentResponse)
| Rejected (reason : JsError).

(** How a piece of code completes: with a value, or by throwing. *)
Inductive Completion (A : Type) : Type :=
| Normal (a : A)
| Abrupt (e : JsError).
Arguments Normal {A} a.
Arguments Abrupt {A} e.

(** ** Asynchronous programs *)

Inductive async (A : Type) : Type :=
| Return (a : A)
| Throw (e : JsError)
| SetQueue (f : list BatchItem → list BatchItem) (k : async A)
| SetIsProcessing (b : bool) (k : async A)
| ConsoleError (label : string) (e : JsError) (k : async A)
| GenerateContent (req : GenerateContentParameters) (k : nat → async A)
| AwaitSettled (promise : nat) (k : Settled → async A).

Arguments Return {A} a.
Arguments Throw {A} e.
Arguments SetQueue {A} f k.
Arguments SetIsProcessing {A} b k.
Arguments ConsoleError {A} label e k.
Arguments GenerateContent {A} req k.
Arguments AwaitSettled {A} promise k.

Fixpoint async_bind {A B : Type} (f : A → async B) (m : async A) : async B :=
  match m with
  | Return a => f a
  | Throw e => Throw e
  | SetQueue g k => SetQueue g (async_bind f k)
  | SetIsProcessing b k => SetIsProcessing b (async_bind f k)
  | ConsoleError l e k => ConsoleError l e (async_bind f k)
  | GenerateContent req k => GenerateContent req (λ p, async_bind f (k p))
  | AwaitSettled p k => AwaitSettled p (λ o, async_bind f (k o))
  end.

Global Instance async_ret : MRet async := @Return.
Global Instance async_mbind : MBind async := @async_bind.

(** [try { body } catch (e) { handler e }]. *)
Fixpoint try_catch {A : Type} (body : async A) (handler : JsError → async A)
  : async A :=
  match body with
  | Return a => Return a
  | Throw e => handler e
  | SetQueue g k => SetQueue g (try_catch k handler)
  | SetIsProcessing b k => SetIsProcessing b (try_catch k handler)
  | ConsoleError l e k => ConsoleError l e (try_catch k handler)
  | GenerateContent req k => GenerateContent req (λ p, try_catch (k p) handler)
  | AwaitSettled p k => AwaitSettled p (λ o, try_catch (k o) handler)
  end.

(** A completion as a statement: [return a] or [throw e]. *)
Definition complete {A : Type} (c : Completion A) : async A :=
  match c with
  | Normal a => Return a
  | Abrupt e => Throw e
  end.

(** The effects as statements. *)
Definition setQueue (f : list BatchItem → list BatchItem) : async unit :=
  SetQueue f (Return tt).
Definition setIsProcessing (b : bool) : async unit :=
  SetIsProcessing b (Return tt).
Definition console_error (label : string) (e : JsError) : async unit :=
  ConsoleError label e (Return tt).

(** [ai.models.generateContent(req)]: sends the request, yields its promise.
    (A call that throws before it returns is, inside an [async] function
    that awaits it at once, a promise that is rejected.) *)
Definition generateContent (req : GenerateContentParameters) : async nat :=
  GenerateContent req Return.

(** [await promise]: resumes with the response, or throws the rejection. *)
Definition await (promise : nat) : async GenerateContentResponse :=
  AwaitSettled promise (λ o,
    match o with
    | Fulfilled response => Return response
    | Rejected reason => Throw reason
    end).

(** [for (const x of xs) { await body(x) }]. *)
Fixpoint for_of {A : Type} (xs : list A) (body : A → async unit) : async unit :=
  match xs with
  | [] => Return tt
  | x :: rest => body x ;; for_of rest body
  end.

(** ** services/geminiService.ts *)

Definition promptHead : string :=
  Js.lines [
    "";
    "      Act as a professional high-end product photographer and photo retoucher. ";
    "      Transform the input image into a high-definition, studio-quality e-commerce main product image (Hero Shot).";
    "      ";
    "      Requirements:";
    "      1. Lighting: Use professional studio lighting (softbox/rim lighting) to highlight product details and texture.";
    "      2. Background: Place the product on a clean, neutral background (pure white or very subtle gradient studio gray) suitable for Amazon/Shopify.";
    "      3. Quality: Ensure 4K resolution look, sharp edges, and reduced noise.";
    "      4. Aesthetics: Make the product look premium, expensive, and desirable.";
    "      5. Fixes: Correct any white balance issues, remove dust/scratches if visible, and straighten the perspective if needed.";
    "      ";
    "      User specific instructions: " ].

Definition promptTail : string := Js.nl +:+ "    ".

Definition defaultInstruction : string :=
  "Keep the product faithful to the original but significantly enhance the visual appeal.".

Definition prompt (customInstruction : string) : string :=
  promptHead +:+ Js.or_else customInstruction defaultInstruction +:+ promptTail.

Definition dataUrlPrefix : string := "data:image/png;base64,".

(** The [for (const part of ...parts)] loop with its early [return]. *)
Fixpoint firstInlineImage (ps : list Part) : option string :=
  match ps with
  | [] => None
  | part :: rest =>
      match inlineData part with
      | Some blob =>
          match data blob with
          | Some d => if Js.truthy d then Some (dataUrlPrefix +:+ d)
                      else firstInlineImage rest
          | None => firstInlineImage rest
          end
      | None => firstInlineImage rest
      end
  end.

Definition noImageError : JsError := Error "No image data received from Gemini.".

(** "Extract image from response": the synchronous tail of the function,
    which either returns the data URL or throws. *)
Definition extractImage (response : GenerateContentResponse)
  : Completion (option string) :=
  match candidates response with
  | Some cs =>
      match cs !! 0%nat with
      | None => Abrupt (TypeError "content")
      | Some c =>
          match content c with
          | None => Abrupt (TypeError "parts")
          | Some ct =>
              match parts ct with
              | Some ps =>
                  match firstInlineImage ps with
                  | Some url => Normal (Some url)
                  | None => Abrupt noImageError
                  end
              | None => Abrupt noImageError
              end
          end
      end
  | None => Abrupt noImageError
  end.

Definition refineRequest (base64Image customInstruction : string)
    (aspectRatio : AspectRatio) : GenerateContentParameters :=
  let base64Data := Js.split "," base64Image !! 1%nat in
  let mimeType :=
    Js.substring base64Image
      (Js.indexOf ":" base64Image + 1) (Js.indexOf ";" base64Image) in
  {| model := "gemini-2.5-flash-image";
     contents := [ mkPart (Some (mkBlob base64Data (Some mimeType))) None;
                   mkPart None (Some (prompt customInstruction)) ];
     imageConfig_aspectRatio := aspectRatio |}.

Definition refineProductImage (base64Image customInstruction : string)
    (aspectRatio : AspectRatio) : async (option string) :=
  try_catch
    (promise ← generateContent
                 (refineRequest base64Image customInstruction aspectRatio);
     response ← await promise;
     complete (extractImage response))
    (λ error,
       console_error "Gemini API Error:" error ;;
       Throw error).

(** ** App.tsx: the React state and the synchronous handlers *)

Record AppState : Type := mkApp {
  queue : list BatchItem;
  customPrompt : string;
  aspectRatio : AspectRatio;
  isProcessing : bool
}.

Definition initialState : AppState := mkApp [] "" SQUARE false.

Definition withQueue (q : list BatchItem) (st : AppState) : AppState :=
  mkApp q (customPrompt st) (aspectRatio st) (isProcessing st).

Definition withIsProcessing (b : bool) (st : AppState) : AppState :=
  mkApp (queue st) (customPrompt st) (aspectRatio st) b.

(** [handleImagesSelect]; [randomUUID k] is what the k-th call of
    [crypto.randomUUID()] of this invocation returns. *)
Definition handleImagesSelect (randomUUID : nat → string)
    (base64s : list string) (st : AppState) : AppState :=
  let newItems :=
    imap (λ k img,
            {| id := randomUUID k; original := img; generated := None;
               status := idle; errorMessage := None; error := None |})
         base64s in
  withQueue (queue st ++ newItems) st.

Definition handleDeleteItem (id0 : string) (st : AppState) : AppState :=
  withQueue (filter (λ item, id item ≠ id0) (queue st)) st.

Definition pendingCount (st : AppState) : nat :=
  length (filter (λ i, status i = idle) (queue st)).
Definition processingCount (st : AppState) : nat :=
  length (filter (λ i, status i = processing) (queue st)).
Definition completedCount (st : AppState) : nat :=
  length (filter (λ i, status i = success) (queue st)).

(** ** App.tsx: [processQueue] and its helper [processItem] *)

(** [prev.map(i => i.id === item.id ? f(i) : i)]. *)
Definition mapItem (item : BatchItem) (f : BatchItem → BatchItem)
    (prev : list BatchItem) : list BatchItem :=
  (λ i, if decide (id i = id item) then f i else i) <$> prev.

(** [{ ...i, status: 'processing', error: undefined }]. *)
Definition withProcessing (i : BatchItem) : BatchItem :=
  {| id := id i; original := original i; generated := generated i;
     status := processing; errorMessage := errorMessage i; error := None |}.

(** [{ ...i, status: 'success', generated: result }]. *)
Definition withSuccess (result : option string) (i : BatchItem) : BatchItem :=
  {| id := id i; original := original i; generated := result;
     status := success; errorMessage := errorMessage i; error := error i |}.

(** [error.message || "Failed"]. *)
Definition messageOrFailed (e : JsError) : string :=
  match message e with
  | Some m => Js.or_else m "Failed"
  | None => "Failed"
  end.

(** [{ ...i, status: 'error', errorMessage: error.message || "Failed" }]. *)
Definition withError (e : JsError) (i : BatchItem) : BatchItem :=
  {| id := id i; original := original i; generated := generated i;
     status := error_; errorMessage := Some (messageOrFailed e);
     error := error i |}.

(** [processItem], closed over the render [r] that created it. *)
Definition processItem (r : AppState) (item : BatchItem) : async unit :=
  try_catch
    (setQueue (mapItem item withProcessing) ;;
     result ← refineProductImage (original item) (customPrompt r) (aspectRatio r);
     setQueue (mapItem item (withSuccess result)))
    (λ e, setQueue (mapItem item (withError e))).

Definition itemsToProcess (r : AppState) : list BatchItem :=
  filter (λ item, status item = idle ∨ status item = error_) (queue r).

(** [processQueue] as created by the render [r]: [queue], [customPrompt],
    [aspectRatio] and [isProcessing] are the values that render saw. *)
Definition processQueue (r : AppState) : async unit :=
  if isProcessing r then Return tt
  else
    setIsProcessing true ;;
    for_of (itemsToProcess r) (processItem r) ;;
    setIsProcessing false.

(** ** What the user can do on the page *)

Inductive UserAction : Type :=
| FilesRead (randomUUID : nat → string) (base64s : list string)
| ClickRemove (card : nat)
| ClickClear
| ClickAspectRatio (ratio : AspectRatio)
| TypeInstruction (value : string).

(** The Remove button of a card, as rendered:
    [onClick={() => handleDeleteItem(item.id)}],
    [disabled={item.status === 'processing'}]. *)
Record Button : Type := mkButton {
  onClick : AppState → AppState;
  disabled : bool
}.

Definition removeButton (item : BatchItem) : Button :=
  {| onClick := handleDeleteItem (id item);
     disabled := bool_decide (status item = processing) |}.

(** A click on a disabled button dispatches nothing. *)
Definition click (b : Button) (st : AppState) : AppState :=
  if disabled b then st else onClick b st.

(** One card per queue item: the Remove buttons of the page. *)
Definition removeButtons (st : AppState) : list Button :=
  removeButton <$> queue st.

(** The Clear button exists only when
    [queue.length > 0 && !isProcessing]. *)
Definition clearButton (st : AppState) : option Button :=
  if bool_decide (0 < length (queue st)) && negb (isProcessing st)
  then Some {| onClick := withQueue []; disabled := false |}
  else None.

Definition act (a : UserAction) (st : AppState) : AppState :=
  match a with
  | FilesRead randomUUID base64s => handleImagesSelect randomUUID base64s st
  | ClickRemove card =>
      match removeButtons st !! card with
      | Some b => click b st
      | None => st
      end
  | ClickClear =>
      match clearButton st with
      | Some b => click b st
      | None => st
      end
  | ClickAspectRatio ratio =>
      if isProcessing st then st
      else mkApp (queue st) (customPrompt st) ratio (isProcessing st)
  | TypeInstruction value =>
      if isProcessing st then st
      else mkApp (queue st) value (aspectRatio st) (isProcessing st)
  end.

Definition acts (l : list UserAction) (st : AppState) : AppState :=
  foldl (λ s a, act a s) st l.

(** ** The machine *)

Inductive Event : Type :=
| EvQueue (q : list BatchItem)
| EvIsProcessing (b : bool)
| EvConsoleError (label : string) (e : JsError)
| EvRequest (promise : nat) (req : GenerateContentParameters)
| EvSettled (promise : nat) (o : Settled)
| EvUser (a : UserAction).

Record Outcome (A : Type) : Type := mkOutcome {
  completion : Completion A;
  final : AppState;
  promises : nat;
  trace : list Event
}.
Arguments mkOutcome {A} _ _ _ _.
Arguments completion {A} _.
Arguments final {A} _.
Arguments promises {A} _.
Arguments trace {A} _.

Definition emit {A : Type} (evs : list Event) (o : Outcome A) : Outcome A :=
  mkOutcome (completion o) (final o) (promises o) (evs ++ trace o).

Section Machine.

(** [oracle p]: how the p-th outbound call settles.
    [env p]: what the user does on the page while call [p] is awaited. *)
Variable oracle : nat → Settled.
Variable env : nat → list UserAction.

(** [run p st n]: execute [p] from store [st], [n] promises created so
    far.  A [setQueue(f)] applies [f] to the store's current queue. *)
Fixpoint run {A : Type} (p : async A) (st : AppState) (n : nat)
  : Outcome A :=
  match p with
  | Return a => mkOutcome (Normal a) st n []
  | Throw e => mkOutcome (Abrupt e) st n []
  | SetQueue f k =>
      let st' := withQueue (f (queue st)) st in
      emit [EvQueue (queue st')] (run k st' n)
  | SetIsProcessing b k =>
      emit [EvIsProcessing b] (run k (withIsProcessing b st) n)
  | ConsoleError l e k =>
      emit [EvConsoleError l e] (run k st n)
  | GenerateContent req k =>
      emit [EvRequest n req] (run (k n) st (S n))
  | AwaitSettled h k =>
      emit ((EvUser <$> env h) ++ [EvSettled h (oracle h)])
           (run (k (oracle h)) (acts (env h) st) n)
  end.

End Machine.

(** Nobody touches the page. *)
Definition quiet : nat → list UserAction := λ _, [].

(** ** Reading an outcome *)

Section Reading.

Variable oracle : nat → Settled.
Variable env : nat → list UserAction.

(** Sequencing: the second statement starts where the first one stopped,
    and does not start at all when the first one throws. *)
Definition andThen {A B : Type} (o : Outcome A)
    (next : A → AppState → nat → Outcome B) : Outcome B :=
  match completion o with
  | Normal a => emit (trace o) (next a (final o) (promises o))
  | Abrupt e => mkOutcome (Abrupt e) (final o) (promises o) (trace o)
  end.

(** [try]/[catch]: the handler starts where the body threw. *)
Definition orCatch {A : Type} (o : Outcome A)
    (handler : JsError → AppState → nat → Outcome A) : Outcome A :=
  match completion o with
  | Normal a => o
  | Abrupt e => emit (trace o) (handler e (final o) (promises o))
  end.

(** What [refineProductImage] completes with, given how its outbound
    call settled. *)
Definition refined (o : Settled) : Completion (option string) :=
  match o with
  | Fulfilled response => extractImage response
  | Rejected reason => Abrupt reason
  end.

Definition callEvents (n : nat) (req : GenerateContentParameters)
  : list Event :=
  EvRequest n req :: (EvUser <$> env n) ++ [EvSettled n (oracle n)].

Definition logged (c : Completion (option string)) : list Event :=
  match c with
  | Normal _ => []
  | Abrupt e => [EvConsoleError "Gemini API Error:" e]
  end.

(** The queue write that closes [processItem]. *)
Definition record (item : BatchItem) (c : Completion (option string))
  : list BatchItem → list BatchItem :=
  match c with
  | Normal result => mapItem item (withSuccess result)
  | Abrupt e => mapItem item (withError e)
  end.

(** The store when the call of [item] is sent, when it has settled, and
    when its result is written. *)
Definition sent (item : BatchItem) (st : AppState) : AppState :=
  withQueue (mapItem item withProcessing (queue st)) st.
Definition settled (item : BatchItem) (st : AppState) (n : nat) : AppState :=
  acts (env n) (sent item st).
Definition recorded (item : BatchItem) (st : AppState) (n : nat) : AppState :=
  let st2 := settled item st n in
  withQueue (record item (refined (oracle n)) (queue st2)) st2.

(** The request [processItem] sends for [item]. *)
Definition requestOf (r : AppState) (item : BatchItem)
  : GenerateContentParameters :=
  refineRequest (original item) (customPrompt r) (aspectRatio r).

Definition itemEvents (r : AppState) (item : BatchItem) (st : AppState)
    (n : nat) : list Event :=
  EvQueue (queue (sent item st))
  :: callEvents n (requestOf r item)
  ++ logged (refined (oracle n))
  ++ [EvQueue (queue (recorded item st n))].

(** [for (const item of items) await processItem(item)], executed. *)
Definition loop (r : AppState) (items : list BatchItem)
  : AppState → nat → Outcome unit :=
  run oracle env (for_of items (processItem r)).

(** The events of the loop: the events of each turn, one turn after the
    other, each turn starting from the store the previous one left. *)
Fixpoint loopEvents (r : AppState) (items : list BatchItem) (st : AppState)
    (n : nat) : list Event :=
  match items with
  | [] => []
  | item :: rest =>
      itemEvents r item st n ++ loopEvents r rest (recorded item st n) (S n)
  end.

(** What one turn of the loop makes of a queue entry when nobody touches
    the page, and what the turns for [items] make of it. *)
Definition turn (item : BatchItem) (c : Completion (option string))
    (i : BatchItem) : BatchItem :=
  if decide (id i = id item) then
    match c with
    | Normal result => withSuccess result (withProcessing i)
    | Abrupt e => withError e (withProcessing i)
    end
  else i.

Fixpoint turns (items : list BatchItem) (n : nat) (i : BatchItem)
  : BatchItem :=
  match items with
  | [] => i
  | item :: rest => turns rest (S n) (turn item (refined (oracle n)) i)
  end.

End Reading.

(** ** Observations on a trace *)

(** The outbound requests of a trace, oldest first. *)
Definition requests (t : list Event) : list GenerateContentParameters :=
  omap (λ e, match e with EvRequest _ req => Some req | _ => None end) t.

(** Calls sent and calls settled. *)
Definition settlements (t : list Event) : list (nat * Settled) :=
  omap (λ e, match e with EvSettled p o => Some (p, o) | _ => None end) t.
Definition sentCount (t : list Event) : nat := length (requests t).
Definition settledCount (t : list Event) : nat := length (settlements t).

(** The kind of an event, for reading traces. *)
Definition eventKind (e : Event) : string :=
  match e with
  | EvQueue _ => "setQueue"
  | EvIsProcessing true => "setIsProcessing(true)"
  | EvIsProcessing false => "setIsProcessing(false)"
  | EvConsoleError _ _ => "console.error"
  | EvRequest _ _ => "request"
  | EvSettled _ (Fulfilled _) => "fulfilled"
  | EvSettled _ (Rejected _) => "rejected"
  | EvUser _ => "user"
  end.

(** Where the workflow stands between two events: no call pending and
    nothing left to write; a call in flight; or a settled call whose
    result has not reached the queue yet. *)
Inductive Phase : Type := Ready | InFlight (promise : nat) | Unrecorded.

Definition phaseStep (ph : Phase) (e : Event) : option Phase :=
  match e with
  | EvRequest p _ =>
      match ph with Ready => Some (InFlight p) | _ => None end
  | EvSettled p _ =>
      match ph with
      | InFlight p' => if decide (p = p') then Some Unrecorded else None
      | _ => None
      end
  | EvQueue _ =>
      match ph with Unrecorded => Some Ready | _ => Some ph end
  | _ => Some ph
  end.

Fixpoint phaseAfter (ph : Phase) (t : list Event) : option Phase :=
  match t with
  | [] => Some ph
  | e :: t' =>
      match phaseStep ph e with
      | Some ph' => phaseAfter ph' t'
      | None => None
      end
  end.

(** A trace is sequential when no request is sent while an earlier call is
    in flight or its result is still unrecorded, and nothing is pending at
    the end. *)
Definition sequential (t : list Event) : Prop := phaseAfter Ready t = Some Ready.

Definition pending (ph : Phase) : nat :=
  match ph with InFlight _ => 1 | _ => 0 end.

(** An entry as [handleImagesSelect] creates it. *)
Definition asCreated (i : BatchItem) : Prop :=
  status i = idle ∧ generated i = None ∧ errorMessage i = None.

(** Entries whose id the run did not select are as the store had them at
    the start, or as the uploader created them. *)
Definition untouched (selected q0 q : list BatchItem) : Prop :=
  ∀ i, i ∈ q → id i ∉ (id <$> selected) → i ∈ q0 ∨ asCreated i.

(** ** Sample data *)

Module Sample.

Definition photo : string := "data:image/jpeg;base64,QUJD".

(** A response with a caption and one inline image. *)
Definition picture (d : string) : Settled :=
  Fulfilled (mkResponse (Some [mkCandidate (Some (mkContent (Some
    [ mkPart None (Some "Here is the refined image.");
      mkPart (Some (mkBlob (Some d) (Some "image/png"))) None ])))])).

(** A response with text only. *)
Definition captionOnly : Settled :=
  Fulfilled (mkResponse (Some [mkCandidate (Some (mkContent (Some
    [ mkPart None (Some "I cannot edit this image.") ])))])).

Definition quota : Settled :=
  Rejected (mkJsError "ApiError" (Some "quota exceeded")).

Definition item (i : string) (s : Status) (g m : option string) : BatchItem :=
  mkBatchItem i photo g s m None.

Definition three : AppState :=
  mkApp [ item "a" idle None None;
          item "b" idle None None;
          item "c" idle None None ]
        "pure white background" PORTRAIT false.

(** A queue with one failed entry and one new upload. *)
Definition retry : AppState :=
  mkApp [ item "a" error_ None (Some "quota exceeded");
          item "b" idle None None ]
        "" SQUARE false.

Definition busy : AppState :=
  mkApp [ item "a" processing None None; item "b" idle None None ]
        "" SQUARE true.

Definition allSucceed (p : nat) : Settled := picture "UE5H".

(** The second call is rejected, the others succeed. *)
Definition secondFails (p : nat) : Settled :=
  match p with 1 => quota | _ => picture "UE5H" end.

(** The first call is rejected, the others succeed. *)
Definition firstFails (p : nat) : Settled :=
  match p with 0 => quota | _ => picture "UE5H" end.

(** A file finishes loading while the first call is awaited. *)
Definition lateUpload (p : nat) : list UserAction :=
  match p with
  | 0 => [FilesRead (λ _, "late") [photo]]
  | _ => []
  end.

(** The session of the defect: one upload, a failed run, a second
    upload, a run in which every call succeeds. *)
Definition uploaded1 : AppState :=
  handleImagesSelect (λ _, "a") [photo] initialState.
Definition run1 : Outcome unit :=
  run firstFails quiet (processQueue uploaded1) uploaded1 0.
Definition uploaded2 : AppState :=
  handleImagesSelect (λ _, "b") [photo] (final run1).
Definition run2 : Outcome unit :=
  run firstFails quiet (processQueue uploaded2) uploaded2 (promises run1).

End Sample.

(** ** App.tsx: what a card offers *)

(** [disabled={isProcessing || pendingCount === 0}], the prop the start
    button is given. *)
Definition startDisabled (st : AppState) : bool :=
  isProcessing st || bool_decide (pendingCount st = 0).

(** [item.generated || item.original], the image of a card. *)
Definition cardImage (item : BatchItem) : string :=
  match generated item with
  | Some g => Js.or_else g (original item)
  | None => original item
  end.

(** [item.errorMessage || "处理失败"], the text of the error overlay. *)
Definition errorText (item : BatchItem) : string :=
  match errorMessage item with
  | Some m => Js.or_else m "处理失败"
  | None => "处理失败"
  end.

(** The anchor [handleDownload] creates, clicks and removes. *)
Record Anchor : Type := mkAnchor {
  href : string;
  download : string
}.

(** [handleDownload]: the anchor that is clicked, if any. *)
Definition handleDownload (item : BatchItem) : option Anchor :=
  match generated item with
  | Some g =>
      if Js.truthy g
      then Some {| href := g; download := "product-" +:+ id item +:+ ".png" |}
      else None
  | None => None
  end.

(** ** components/ImageUploader.tsx *)

Module ImageUploader.

(** A file the user picked or dropped: what the component reads of it. *)
Record File : Type := mkFile {
  name : string;
  type : string
}.

(** [s.startsWith(p)]. *)
Definition startsWith (s p : string) : bool := String.prefix p s.

Section Reader.

(** [readAsDataURL file]: [reader.result] at [loadend] when it is a
    string; [None] when it is not (the read failed), in which case the
    promise of that file is never resolved. *)
Variable readAsDataURL : File → option string.

Definition validFiles (files : list File) : list File :=
  filter (λ file, startsWith (type file) "image/" = true) files.

(** [processFiles]: the images [onImagesSelected] is called with, or
    [None] when it is never called. [Promise.all] resolves, with the
    results in the order of the files, only when every promise does. *)
Definition processFiles (files : list File) : option (list string) :=
  if bool_decide (length (validFiles files) = 0) then None
  else mapM readAsDataURL (validFiles files).

(** [onDrop], given the [disabled] prop and [e.dataTransfer.files] (a
    file list, possibly empty). *)
Definition onDrop (disabled : bool) (files : list File)
  : option (list string) :=
  if disabled then None
  else if bool_decide (0 < length files) then processFiles files
  else None.

(** [onChange] of the file input: [e.target.files && processFiles(...)]. *)
Definition onChange (files : option (list File)) : option (list string) :=
  match files with
  | Some fs => processFiles fs
  | None => None
  end.

End Reader.

End ImageUploader.

(** [<ImageUploader onImagesSelected={handleImagesSelect} .../>]: a drop on
    the uploader, whose [disabled] prop was [uploaderDisabled] at the drop,
    seen from the store [st] in which the images arrive. *)
Definition dropFiles (readAsDataURL : ImageUploader.File → option string)
    (randomUUID : nat → string) (uploaderDisabled : bool)
    (files : list ImageUploader.File) (st : AppState) : AppState :=
  match ImageUploader.onDrop readAsDataURL uploaderDisabled files with
  | Some images => handleImagesSelect randomUUID images st
  | None => st
  end.

(** ** Reading requests and strings *)

(** [contents.parts[0].inlineData] of a request. *)
Definition requestImage (req : GenerateContentParameters) : option Blob :=
  head (contents req) ≫= inlineData.

(** What a trace logged with [console.error]. *)
Definition consoleErrors (t : list Event) : list (string * JsError) :=
  omap (λ e, match e with EvConsoleError l x => Some (l, x) | _ => None end) t.

(** Does the character occur in the string? *)
Fixpoint occurs (c : ascii) (s : string) : bool :=
  match s with
  | EmptyString => false
  | String a s' => Ascii.eqb a c || occurs c s'
  end.

(** The string of one character. *)
Definition char (c : ascii) : string := String c EmptyString.

(** No entry is 'processing'. *)
Definition noneProcessing (q : list BatchItem) : Prop :=
  ∀ i, i ∈ q → status i ≠ processing.

(** The only 'processing' entries are those with the id [x]. *)
Definition processingOnly (x : string) (q : list BatchItem) : Prop :=
  ∀ i, i ∈ q → status i = processing → id i = x.

(** What a run never writes: the id and the source image of an entry. *)
Definition identity (i : BatchItem) : string * string := (id i, original i).

(** ** More sample data *)

Module Demo.

Definition png : ImageUploader.File := ImageUploader.mkFile "shoe.png" "image/png".
Definition pdf : ImageUploader.File := ImageUploader.mkFile "invoice.pdf" "application/pdf".
Definition jpg : ImageUploader.File := ImageUploader.mkFile "bag.jpg" "image/jpeg".

(** A reader for which every file loads. *)
Definition reads (f : ImageUploader.File) : option string :=
  Some ("data:" +:+ ImageUploader.type f +:+ ";base64,QUJD").

(** A reader for which the JPEG fails to load. *)
Definition jpgFails (f : ImageUploader.File) : option string :=
  if bool_decide (ImageUploader.type f = "image/jpeg") then None else reads f.

Definition uuids (k : nat) : string :=
  match k with 0 => "u0" | 1 => "u1" | _ => "u2" end.

(** One entry done, one failed, none waiting. *)
Definition afterFailure : AppState :=
  mkApp [ Sample.item "a" success (Some "data:image/png;base64,UE5H") None;
          Sample.item "b" error_ None (Some "quota exceeded") ]
        "" SQUARE false.

Definition finished : BatchItem :=
  Sample.item "a" success (Some "data:image/png;base64,UE5H") None.

End Demo.

(** * Properties *)

(** ** The machine is compositional *)

Lemma emit_emit {A : Type} (l1 l2 : list Event) (o : Outcome A) :
  emit l1 (emit l2 o) = emit (l1 ++ l2) o.
Proof. unfold emit; simpl. by rewrite app_assoc. Qed.

Lemma emit_nil {A : Type} (o : Outcome A) : emit [] o = o.
Proof. by destruct o. Qed.

Lemma andThen_emit {A B : Type} (l : list Event) (o : Outcome A)
    (next : A → AppState → nat → Outcome B) :
  andThen (emit l o) next = emit l (andThen o next).
Proof.
  unfold andThen; simpl. destruct (completion o); simpl.
  - by rewrite emit_emit.
  - done.
Qed.

Lemma orCatch_emit {A : Type} (l : list Event) (o : Outcome A)
    (handler : JsError → AppState → nat → Outcome A) :
  orCatch (emit l o) handler = emit l (orCatch o handler).
Proof.
  unfold orCatch; simpl. destruct (completion o); simpl.
  - done.
  - by rewrite emit_emit.
Qed.

Section MachineFacts.

Variable oracle : nat → Settled.
Variable env : nat → list UserAction.

Lemma run_bind {A B : Type} (m : async A) (f : A → async B) st n :
  run oracle env (m ≫= f) st n
  = andThen (run oracle env m st n) (λ a, run oracle env (f a)).
Proof.
  change (m ≫= f) with (async_bind f m).
  revert st n.
  induction m as [a|e|g k IH|b k IH|l e k IH|req k IH|h k IH];
    intros st n; simpl.
  - unfold andThen; simpl. by rewrite emit_nil.
  - done.
  - by rewrite IH, andThen_emit.
  - by rewrite IH, andThen_emit.
  - by rewrite IH, andThen_emit.
  - by rewrite IH, andThen_emit.
  - by rewrite IH, andThen_emit.
Qed.

Lemma run_try_catch {A : Type} (m : async A) (h : JsError → async A) st n :
  run oracle env (try_catch m h) st n
  = orCatch (run oracle env m st n) (λ e, run oracle env (h e)).
Proof.
  revert st n.
  induction m as [a|e|g k IH|b k IH|l e k IH|req k IH|p k IH];
    intros st n; simpl.
  - done.
  - unfold orCatch; simpl. by rewrite emit_nil.
  - by rewrite IH, orCatch_emit.
  - by rewrite IH, orCatch_emit.
  - by rewrite IH, orCatch_emit.
  - by rewrite IH, orCatch_emit.
  - by rewrite IH, orCatch_emit.
Qed.

(** *** One call of the service *)

Lemma run_refineProductImage img instr ratio st n :
  run oracle env (refineProductImage img instr ratio) st n
  = mkOutcome (refined (oracle n)) (acts (env n) st) (S n)
      (callEvents oracle env n (refineRequest img instr ratio)
       ++ logged (refined (oracle n))).
Proof.
  unfold refineProductImage, callEvents. simpl.
  unfold emit, refined; simpl.
  destruct (oracle n) as [response|reason]; simpl.
  - destruct (extractImage response) as [v|e]; simpl;
      by rewrite ?app_nil_r, <- ?app_assoc.
  - by rewrite <- app_assoc.
Qed.

(** *** One turn of the loop *)

Lemma run_processItem r item st n :
  run oracle env (processItem r item) st n
  = mkOutcome (Normal tt) (recorded oracle env item st n) (S n)
      (itemEvents oracle env r item st n).
Proof.
  unfold processItem.
  rewrite run_try_catch.
  change (setQueue ?f ;; ?k) with (setQueue f ≫= (λ _, k)).
  rewrite run_bind. unfold andThen at 1.
  cbn [run setQueue completion final promises trace emit].
  rewrite run_bind, run_refineProductImage.
  unfold andThen, orCatch, itemEvents, requestOf, recorded, settled, sent, emit.
  cbn [run setQueue completion final promises trace].
  destruct (refined (oracle n)) as [v|e];
    cbn [run setQueue completion final promises trace logged app];
    rewrite ?app_nil_r; f_equal; simpl; by rewrite <- ?app_assoc.
Qed.

(** *** The loop *)

Variable r : AppState.

Lemma loop_cons item rest st n :
  loop oracle env r (item :: rest) st n
  = emit (itemEvents oracle env r item st n)
         (loop oracle env r rest (recorded oracle env item st n) (S n)).
Proof.
  unfold loop. cbn [for_of].
  change (?m ;; ?k) with (m ≫= (λ _, k)).
  by rewrite run_bind, run_processItem.
Qed.

(** No turn of the loop throws. *)
Lemma loop_completion items st n :
  completion (loop oracle env r items st n) = Normal tt.
Proof.
  revert st n. induction items as [|item rest IH]; intros st n; [done|].
  rewrite loop_cons. apply IH.
Qed.

(** One promise per item. *)
Lemma loop_promises items st n :
  promises (loop oracle env r items st n) = n + length items.
Proof.
  revert st n. induction items as [|item rest IH]; intros st n.
  - simpl. lia.
  - rewrite loop_cons. simpl. rewrite IH. lia.
Qed.

(** [processQueue] from a render that is not processing: the flag goes
    up, the loop runs over the snapshot, the flag goes down. *)
Lemma run_processQueue st n :
  isProcessing r = false →
  run oracle env (processQueue r) st n
  = let o := loop oracle env r (itemsToProcess r) (withIsProcessing true st) n in
    mkOutcome (Normal tt) (withIsProcessing false (final o)) (promises o)
      (EvIsProcessing true :: trace o ++ [EvIsProcessing false]).
Proof.
  intros Hr. unfold processQueue, loop. rewrite Hr.
  change (?m ;; ?k) with (m ≫= (λ _, k)).
  cbn [setIsProcessing mbind async_mbind async_bind run].
  change (async_bind ?f ?m) with (m ≫= f).
  rewrite run_bind. unfold andThen.
  fold (loop oracle env r (itemsToProcess r)).
  rewrite loop_completion. by cbn.
Qed.

End MachineFacts.

(** ** Requests and phases along a trace *)

Lemma requests_app t1 t2 : requests (t1 ++ t2) = requests t1 ++ requests t2.
Proof. apply omap_app. Qed.

Lemma requests_users (l : list UserAction) : requests (EvUser <$> l) = [].
Proof. induction l as [|a l IH]; [done|]. simpl. apply IH. Qed.

Lemma requests_cons_queue q t : requests (EvQueue q :: t) = requests t.
Proof. done. Qed.

Lemma requests_cons_flag b t : requests (EvIsProcessing b :: t) = requests t.
Proof. done. Qed.

Lemma requests_cons_request p req t :
  requests (EvRequest p req :: t) = req :: requests t.
Proof. done. Qed.

Lemma phaseAfter_app ph t1 t2 :
  phaseAfter ph (t1 ++ t2)
  = match phaseAfter ph t1 with
    | Some ph' => phaseAfter ph' t2
    | None => None
    end.
Proof.
  revert ph. induction t1 as [|e t1 IH]; intros ph; simpl; [done|].
  destruct (phaseStep ph e); [apply IH|done].
Qed.

Lemma phaseAfter_users ph (l : list UserAction) :
  phaseAfter ph (EvUser <$> l) = Some ph.
Proof. induction l as [|a l IH]; [done|]. simpl. apply IH. Qed.

(** Along an accepted trace the calls in flight are counted by the phase. *)
Lemma phaseAfter_count ph ph' t :
  phaseAfter ph t = Some ph' →
  pending ph + sentCount t = settledCount t + pending ph'.
Proof.
  revert ph. induction t as [|e t IH]; intros ph H; simpl in H.
  - by simplify_eq.
  - destruct (phaseStep ph e) as [ph1|] eqn:Hs; [|done].
    specialize (IH _ H). unfold sentCount, settledCount in *.
    destruct e, ph; simpl in Hs; try case_decide; simplify_eq;
      simpl in *; lia.
Qed.

Lemma phaseAfter_take ph t k :
  is_Some (phaseAfter ph t) → is_Some (phaseAfter ph (take k t)).
Proof.
  revert ph k. induction t as [|e t IH]; intros ph k H.
  - by rewrite take_nil.
  - destruct k as [|k]; simpl; [done|]. simpl in H.
    destruct (phaseStep ph e); [by apply IH|by destruct H].
Qed.

(** At no point of a sequential trace is more than one call in flight. *)
Lemma sequential_in_flight t k :
  sequential t → sentCount (take k t) ≤ settledCount (take k t) + 1.
Proof.
  intros H.
  destruct (phaseAfter_take Ready t k) as [ph Hph]; [by rewrite H|].
  apply phaseAfter_count in Hph. simpl in Hph.
  destruct ph; simpl in Hph; lia.
Qed.

Section LoopTrace.

Variable oracle : nat → Settled.
Variable env : nat → list UserAction.
Variable r : AppState.

Lemma requests_itemEvents item st n :
  requests (itemEvents oracle env r item st n) = [requestOf r item].
Proof.
  unfold itemEvents, callEvents.
  rewrite requests_cons_queue, requests_app, requests_cons_request.
  rewrite !requests_app, requests_users.
  by destruct (refined (oracle n)).
Qed.

(** The requests of the loop: one per item, in the order of the list. *)
Lemma loop_requests items st n :
  requests (trace (loop oracle env r items st n)) = requestOf r <$> items.
Proof.
  revert st n. induction items as [|item rest IH]; intros st n; [done|].
  rewrite loop_cons. cbn [emit trace].
  by rewrite requests_app, requests_itemEvents, IH.
Qed.

Lemma phaseAfter_itemEvents item st n :
  phaseAfter Ready (itemEvents oracle env r item st n) = Some Ready.
Proof.
  unfold itemEvents, callEvents. simpl.
  rewrite <- !app_assoc, phaseAfter_app, phaseAfter_users. simpl.
  rewrite decide_True by done.
  by destruct (refined (oracle n)).
Qed.

Lemma loop_trace items st n :
  trace (loop oracle env r items st n) = loopEvents oracle env r items st n.
Proof.
  revert st n. induction items as [|item rest IH]; intros st n; [done|].
  rewrite loop_cons. cbn [emit trace loopEvents]. by rewrite IH.
Qed.

Lemma loop_sequential items st n :
  sequential (trace (loop oracle env r items st n)).
Proof.
  unfold sequential.
  revert st n. induction items as [|item rest IH]; intros st n; [done|].
  rewrite loop_cons. cbn [emit trace].
  by rewrite phaseAfter_app, phaseAfter_itemEvents.
Qed.

End LoopTrace.

(** ** The page while a run is in progress *)

Lemma act_isProcessing a st : isProcessing (act a st) = isProcessing st.
Proof.
  destruct a as [uuid imgs|card| |ratio|value]; cbn [act].
  - done.
  - destruct (removeButtons st !! card) as [b|] eqn:Hb; [|done].
    unfold removeButtons in Hb. apply list_lookup_fmap_Some in Hb as (item & -> & _).
    unfold click, removeButton; cbn [disabled onClick].
    case_bool_decide; reflexivity.
  - unfold clearButton. destruct (bool_decide _ && negb _); reflexivity.
  - by destruct (isProcessing st) eqn:E.
  - by destruct (isProcessing st) eqn:E.
Qed.

(** While [isProcessing] is set, the ratio buttons and the instruction box
    are disabled: the selection cannot move. *)
Lemma act_locked a st :
  isProcessing st = true →
  aspectRatio (act a st) = aspectRatio st
  ∧ customPrompt (act a st) = customPrompt st.
Proof.
  intros Hp. destruct a as [uuid imgs|card| |ratio|value]; cbn [act].
  - done.
  - destruct (removeButtons st !! card) as [b|] eqn:Hb; [|done].
    unfold removeButtons in Hb. apply list_lookup_fmap_Some in Hb as (item & -> & _).
    unfold click, removeButton; cbn [disabled onClick].
    case_bool_decide; split; reflexivity.
  - unfold clearButton. destruct (bool_decide _ && negb _); split; reflexivity.
  - by rewrite Hp.
  - by rewrite Hp.
Qed.

Lemma acts_isProcessing l st : isProcessing (acts l st) = isProcessing st.
Proof.
  revert st. induction l as [|a l IH]; intros st; [done|].
  unfold acts in *. simpl. by rewrite IH, act_isProcessing.
Qed.

Lemma acts_locked l st :
  isProcessing st = true →
  aspectRatio (acts l st) = aspectRatio st
  ∧ customPrompt (acts l st) = customPrompt st.
Proof.
  revert st. induction l as [|a l IH]; intros st Hp; [done|].
  unfold acts in *. cbn [foldl].
  destruct (IH (act a st)) as [-> ->]; [by rewrite act_isProcessing|].
  by apply act_locked.
Qed.

Lemma loop_locked oracle env r items st n :
  isProcessing st = true →
  isProcessing (final (loop oracle env r items st n)) = true
  ∧ aspectRatio (final (loop oracle env r items st n)) = aspectRatio st
  ∧ customPrompt (final (loop oracle env r items st n)) = customPrompt st.
Proof.
  revert st n. induction items as [|item rest IH]; intros st n Hp; [done|].
  rewrite loop_cons. cbn [emit final].
  assert (isProcessing (recorded oracle env item st n) = true) as Hp'.
  { unfold recorded, settled, sent; simpl. by rewrite acts_isProcessing. }
  destruct (IH _ (S n) Hp') as (-> & -> & ->). split; [done|].
  unfold recorded, settled; simpl.
  by apply (acts_locked (env n) (sent item st)).
Qed.

(** ** The claims *)

Lemma requests_processQueue oracle env r st n :
  isProcessing r = false →
  requests (trace (run oracle env (processQueue r) st n))
  = requestOf r <$> itemsToProcess r.
Proof.
  intros Hr. rewrite run_processQueue by done. cbv zeta. cbn [trace].
  rewrite requests_cons_flag, requests_app, loop_requests.
  apply app_nil_r.
Qed.

Lemma firstInlineImage_Some ps url :
  firstInlineImage ps = Some url →
  ∃ d, d ≠ "" ∧ url = "data:image/png;base64," +:+ d.
Proof.
  induction ps as [|part rest IH]; simpl; [done|].
  destruct (inlineData part) as [blob|]; [|done].
  destruct (data blob) as [d|]; [|done].
  destruct d as [|c d]; simpl; [done|].
  intros [= <-]. by exists (String c d).
Qed.

Lemma firstInlineImage_no_data ps :
  Forall (λ p, inlineData p = None) ps → firstInlineImage ps = None.
Proof. induction 1 as [|p ps Hp _ IH]; simpl; [done|]. by rewrite Hp. Qed.

Lemma extractImage_Normal response v :
  extractImage response = Normal v →
  ∃ d, d ≠ "" ∧ v = Some ("data:image/png;base64," +:+ d).
Proof.
  unfold extractImage. intros H.
  repeat case_match; simplify_eq.
  match goal with H : firstInlineImage _ = Some _ |- _ =>
    apply firstInlineImage_Some in H as (d & Hd & ->) end.
  by exists d.
Qed.

(** C10: whatever the image, the instruction, the ratio and the way the
    outbound call settles, [refineProductImage] either returns a string that
    begins with "data:image/png;base64," or throws; it never returns
    [null], and a response that holds no inline image data makes it throw
    "No image data received from Gemini.". *)
Theorem refineProductImage_data_url_or_throws oracle env img instr ratio st n :
  let o := run oracle env (refineProductImage img instr ratio) st n in
  completion o ≠ Normal None
  ∧ ((∃ d, d ≠ "" ∧ completion o = Normal (Some ("data:image/png;base64," +:+ d)))
     ∨ (∃ e, completion o = Abrupt e))
  ∧ (∀ response c cs ct ps,
       oracle n = Fulfilled response →
       candidates response = Some (c :: cs) →
       content c = Some ct → parts ct = Some ps →
       Forall (λ p, inlineData p = None) ps →
       completion o = Abrupt noImageError).
Proof.
  cbv zeta. rewrite run_refineProductImage. cbn [completion].
  split; [|split].
  - intros H. unfold refined in H. destruct (oracle n) as [response|]; [|done].
    by apply extractImage_Normal in H as (d & _ & ?).
  - unfold refined. destruct (oracle n) as [response|reason]; [|by right; eexists].
    destruct (extractImage response) as [v|e] eqn:Hx; [left|by right; eexists].
    apply extractImage_Normal in Hx as (d & Hd & ->). by exists d.
  - intros response c cs ct ps -> Hc Hct Hps Hno.
    unfold refined, extractImage. rewrite Hc. simpl. rewrite Hct, Hps.
    by rewrite firstInlineImage_no_data.
Qed.

Lemma refineProductImage_data_url_or_throws_witness :
  let o := run Sample.allSucceed quiet
             (refineProductImage Sample.photo "" SQUARE) initialState 0 in
  completion o ≠ Normal None
  ∧ ((∃ d, d ≠ "" ∧ completion o = Normal (Some ("data:image/png;base64," +:+ d)))
     ∨ (∃ e, completion o = Abrupt e))
  ∧ (∀ response c cs ct ps,
       Sample.allSucceed 0 = Fulfilled response →
       candidates response = Some (c :: cs) →
       content c = Some ct → parts ct = Some ps →
       Forall (λ p, inlineData p = None) ps →
       completion o = Abrupt noImageError).
Proof.
  exact (refineProductImage_data_url_or_throws Sample.allSucceed quiet
           Sample.photo "" SQUARE initialState 0).
Defined.

Lemma processQueue_reentrant_noop_aux oracle env r st n :
  isProcessing r = true →
  processQueue r = Return tt
  ∧ run oracle env (processQueue r) st n = mkOutcome (Normal tt) st n [].
Proof. intros Hr. unfold processQueue. by rewrite Hr. Qed.

(** C3: [processQueue] created by a render in which [isProcessing] is true
    returns at once: it is the empty program, and executing it sends no
    request, writes nothing and leaves the store as it was. *)
Theorem processQueue_reentrant_noop oracle env r st n :
  isProcessing r = true →
  processQueue r = Return tt
  ∧ run oracle env (processQueue r) st n = mkOutcome (Normal tt) st n [].
Proof. apply processQueue_reentrant_noop_aux. Qed.

Lemma processQueue_reentrant_noop_witness :
  isProcessing Sample.busy = true
  ∧ processQueue Sample.busy = Return tt
  ∧ run Sample.allSucceed Sample.lateUpload (processQueue Sample.busy)
      Sample.busy 1
    = mkOutcome (Normal tt) Sample.busy 1 [].
Proof.
  split; [reflexivity|].
  apply (processQueue_reentrant_noop Sample.allSucceed Sample.lateUpload
           Sample.busy Sample.busy 1).
  reflexivity.
Defined.

(** C9: the Remove button of a card whose item is 'processing' is disabled,
    so clicking it changes nothing: the store is the same, the queue keeps
    its length and the item keeps its place and its status. *)
Theorem remove_processing_rejected st card item :
  queue st !! card = Some item →
  status item = processing →
  disabled (removeButton item) = true
  ∧ act (ClickRemove card) st = st
  ∧ length (queue (act (ClickRemove card) st)) = length (queue st)
  ∧ queue (act (ClickRemove card) st) !! card = Some item.
Proof.
  intros Hcard Hst.
  assert (disabled (removeButton item) = true) as Hd.
  { unfold removeButton; simpl. by apply bool_decide_eq_true. }
  assert (act (ClickRemove card) st = st) as Hact.
  { cbn [act]. unfold removeButtons. rewrite list_lookup_fmap, Hcard. simpl.
    unfold click. by rewrite Hd. }
  by rewrite Hact.
Qed.

Lemma remove_processing_rejected_witness :
  queue Sample.busy !! 0 = Some (Sample.item "a" processing None None)
  ∧ status (Sample.item "a" processing None None) = processing
  ∧ disabled (removeButton (Sample.item "a" processing None None)) = true
  ∧ act (ClickRemove 0) Sample.busy = Sample.busy
  ∧ length (queue (act (ClickRemove 0) Sample.busy)) = length (queue Sample.busy)
  ∧ queue (act (ClickRemove 0) Sample.busy) !! 0
    = Some (Sample.item "a" processing None None).
Proof.
  split; [reflexivity|]. split; [reflexivity|].
  apply (remove_processing_rejected Sample.busy 0); reflexivity.
Defined.

(** The handler itself has no such guard: called directly, it removes a
    'processing' item like any other. *)
Example handleDeleteItem_unguarded :
  queue (handleDeleteItem "a" Sample.busy) = [Sample.item "b" idle None None].
Proof. reflexivity. Qed.

(** C8: every request a run sends carries the aspect ratio of the render
    that started the run, and its text part is the fixed prompt around the
    custom instruction, verbatim, when that instruction is not empty, and
    around the default instruction when it is empty; while the run lasts
    the selection in the store cannot move. *)
Theorem request_carries_selection oracle env r st n req :
  req ∈ requests (trace (run oracle env (processQueue r) st n)) →
  imageConfig_aspectRatio req = aspectRatio r
  ∧ (∃ image, contents req = [image; mkPart None (Some (prompt (customPrompt r)))])
  ∧ (customPrompt r ≠ "" →
     prompt (customPrompt r) = promptHead +:+ customPrompt r +:+ promptTail)
  ∧ (customPrompt r = "" →
     prompt (customPrompt r) = promptHead +:+ defaultInstruction +:+ promptTail)
  ∧ aspectRatio (final (run oracle env (processQueue r) st n)) = aspectRatio st
  ∧ customPrompt (final (run oracle env (processQueue r) st n)) = customPrompt st.
Proof.
  intros Hreq.
  destruct (isProcessing r) eqn:Hr.
  { destruct (processQueue_reentrant_noop_aux oracle env r st n Hr) as [_ Hrun].
    rewrite Hrun in Hreq. simpl in Hreq. by apply elem_of_nil in Hreq. }
  rewrite requests_processQueue in Hreq by done.
  apply list_elem_of_fmap in Hreq as (item & -> & _).
  split; [done|]. split; [by eexists|].
  split; [|split].
  - intros Hne. unfold prompt. destruct (customPrompt r); [done|reflexivity].
  - intros ->. reflexivity.
  - rewrite run_processQueue by done. cbn [final withIsProcessing aspectRatio customPrompt].
    destruct (loop_locked oracle env r (itemsToProcess r)
                (withIsProcessing true st) n) as (_ & -> & ->); done.
Qed.

Lemma request_carries_selection_witness :
  let r := Sample.three in
  let req := requestOf r (Sample.item "a" idle None None) in
  let o := run Sample.secondFails Sample.lateUpload (processQueue r) r 0 in
  req ∈ requests (trace o)
  ∧ imageConfig_aspectRatio req = PORTRAIT
  ∧ (∃ image, contents req = [image; mkPart None (Some (prompt (customPrompt r)))])
  ∧ (customPrompt r ≠ "" →
     prompt (customPrompt r) = promptHead +:+ customPrompt r +:+ promptTail)
  ∧ (customPrompt r = "" →
     prompt (customPrompt r) = promptHead +:+ defaultInstruction +:+ promptTail)
  ∧ aspectRatio (final o) = aspectRatio r
  ∧ customPrompt (final o) = customPrompt r.
Proof.
  assert (requestOf Sample.three (Sample.item "a" idle None None)
          ∈ requests (trace (run Sample.secondFails Sample.lateUpload
                               (processQueue Sample.three) Sample.three 0)))
    as Hin by (vm_compute; constructor).
  split; [exact Hin|].
  exact (request_carries_selection Sample.secondFails Sample.lateUpload
           Sample.three Sample.three 0 _ Hin).
Defined.

Lemma settlements_app t1 t2 :
  settlements (t1 ++ t2) = settlements t1 ++ settlements t2.
Proof. apply omap_app. Qed.

Lemma sequential_processQueue oracle env r st n :
  isProcessing r = false →
  sequential (trace (run oracle env (processQueue r) st n)).
Proof.
  intros Hr. rewrite run_processQueue by done. cbv zeta. cbn [trace].
  unfold sequential. cbn [phaseAfter phaseStep].
  rewrite phaseAfter_app.
  by rewrite (loop_sequential oracle env r).
Qed.

(** C6: the trace of a run is the flag going up, then for each selected
    item in turn its own block of events (mark 'processing', send the
    request, the call settles, write the result), then the flag going down;
    the requests go out one per selected item, in the order the items have
    in the queue; the trace is sequential (a request is sent only when the
    previous call has settled and a queue write has followed it), and at no
    point of the trace is more than one call in flight. *)
Theorem processQueue_strictly_sequential oracle env r st n :
  isProcessing r = false →
  let t := trace (run oracle env (processQueue r) st n) in
  t = EvIsProcessing true
      :: loopEvents oracle env r (itemsToProcess r) (withIsProcessing true st) n
      ++ [EvIsProcessing false]
  ∧ requests t = requestOf r <$> itemsToProcess r
  ∧ itemsToProcess r `sublist_of` queue r
  ∧ sequential t
  ∧ (∀ k, sentCount (take k t) ≤ settledCount (take k t) + 1).
Proof.
  intros Hr t. subst t.
  split.
  { rewrite run_processQueue by done. cbv zeta. cbn [trace].
    by rewrite loop_trace. }
  split; [by apply requests_processQueue|].
  split; [apply sublist_filter|].
  split; [by apply sequential_processQueue|].
  intros k. apply sequential_in_flight. by apply sequential_processQueue.
Qed.

Lemma processQueue_strictly_sequential_witness :
  let r := Sample.three in
  let t := trace (run Sample.secondFails Sample.lateUpload (processQueue r) r 0) in
  isProcessing r = false
  ∧ t = EvIsProcessing true
        :: loopEvents Sample.secondFails Sample.lateUpload r
             (itemsToProcess r) (withIsProcessing true r) 0
        ++ [EvIsProcessing false]
  ∧ requests t = requestOf r <$> itemsToProcess r
  ∧ itemsToProcess r `sublist_of` queue r
  ∧ sequential t
  ∧ (∀ k, sentCount (take k t) ≤ settledCount (take k t) + 1).
Proof.
  split; [reflexivity|].
  apply (processQueue_strictly_sequential Sample.secondFails Sample.lateUpload
           Sample.three Sample.three 0).
  reflexivity.
Defined.

(** The run over three uploads whose second call is rejected, while a file
    finishes loading during the first call. *)
Example three_items_trace :
  eventKind <$> trace (run Sample.secondFails Sample.lateUpload
                         (processQueue Sample.three) Sample.three 0)
  = [ "setIsProcessing(true)";
      "setQueue"; "request"; "user"; "fulfilled"; "setQueue";
      "setQueue"; "request"; "rejected"; "console.error"; "setQueue";
      "setQueue"; "request"; "fulfilled"; "setQueue";
      "setIsProcessing(false)" ].
Proof. reflexivity. Qed.

(** ** What a run leaves alone *)

Lemma untouched_mapItem selected q0 q item f :
  (∀ i, id (f i) = id i) →
  id item ∈ id <$> selected →
  untouched selected q0 q →
  untouched selected q0 (mapItem item f q).
Proof.
  intros Hf Hsel Hu i' Hin Hnot.
  unfold mapItem in Hin. apply list_elem_of_fmap in Hin as (i & -> & Hi).
  case_decide as Heq.
  - exfalso. apply Hnot. by rewrite Hf, Heq.
  - by apply Hu.
Qed.

Lemma untouched_act selected q0 a st :
  untouched selected q0 (queue st) →
  untouched selected q0 (queue (act a st)).
Proof.
  intros Hu. destruct a as [uuid imgs|card| |ratio|value]; cbn [act].
  - intros i Hin Hnot. simpl in Hin.
    apply elem_of_app in Hin as [Hin|Hin]; [by apply Hu|].
    right. apply elem_of_lookup_imap in Hin as (k & img & -> & _).
    by repeat split.
  - destruct (removeButtons st !! card) as [b|] eqn:Hb; [|done].
    unfold removeButtons in Hb.
    apply list_lookup_fmap_Some in Hb as (item & -> & _).
    unfold click, removeButton; cbn [disabled onClick].
    case_bool_decide; [done|].
    intros i Hin Hnot. simpl in Hin.
    apply list_elem_of_filter in Hin as [_ Hin]. by apply Hu.
  - unfold clearButton. destruct (bool_decide _ && negb _); [|done].
    intros i Hin. simpl in Hin. by apply elem_of_nil in Hin.
  - by destruct (isProcessing st).
  - by destruct (isProcessing st).
Qed.

Lemma untouched_acts selected q0 l st :
  untouched selected q0 (queue st) →
  untouched selected q0 (queue (acts l st)).
Proof.
  revert st. induction l as [|a l IH]; intros st Hu; [done|].
  unfold acts in *. cbn [foldl]. apply IH. by apply untouched_act.
Qed.

Lemma untouched_recorded oracle env selected q0 item st n :
  id item ∈ id <$> selected →
  untouched selected q0 (queue st) →
  untouched selected q0 (queue (recorded oracle env item st n)).
Proof.
  intros Hsel Hu. unfold recorded, record, settled, sent. cbn [queue withQueue].
  assert (untouched selected q0
            (queue (acts (env n)
                      (withQueue (mapItem item withProcessing (queue st)) st))))
    as Hu'.
  { apply untouched_acts. simpl. by apply untouched_mapItem. }
  destruct (refined (oracle n)); by apply untouched_mapItem.
Qed.

Lemma untouched_loop oracle env r selected q0 items st n :
  (∀ item, item ∈ items → id item ∈ id <$> selected) →
  untouched selected q0 (queue st) →
  untouched selected q0 (queue (final (loop oracle env r items st n))).
Proof.
  revert st n. induction items as [|item rest IH]; intros st n Hsub Hu; [done|].
  rewrite loop_cons. cbn [emit final].
  apply IH.
  - intros it Hit. apply Hsub. by right.
  - apply untouched_recorded; [|done]. apply Hsub. by left.
Qed.

(** C7: a run sends exactly one request per item that is 'idle' or 'error'
    in the queue of the render that started it, whatever happens on the
    page meanwhile; 'success' and 'processing' items are not selected; and
    an entry whose id was not selected ends the run as the store had it at
    the start or, when it was uploaded during the run, as it was created
    ('idle', nothing generated). *)
Theorem processQueue_selects_snapshot oracle env r st n :
  isProcessing r = false →
  let o := run oracle env (processQueue r) st n in
  requests (trace o) = requestOf r <$> itemsToProcess r
  ∧ promises o = n + length (itemsToProcess r)
  ∧ (∀ item, item ∈ itemsToProcess r
             ↔ item ∈ queue r ∧ (status item = idle ∨ status item = error_))
  ∧ (∀ item, item ∈ queue r →
             status item = success ∨ status item = processing →
             item ∉ itemsToProcess r)
  ∧ untouched (itemsToProcess r) (queue st) (queue (final o)).
Proof.
  intros Hr o. subst o.
  split; [by apply requests_processQueue|].
  rewrite run_processQueue by done. cbv zeta. cbn [promises final].
  split; [apply loop_promises|].
  split.
  { intros item. unfold itemsToProcess. rewrite list_elem_of_filter. tauto. }
  split.
  { intros item _ Hs Hin. unfold itemsToProcess in Hin.
    apply list_elem_of_filter in Hin as [[Hi|Hi] _];
      destruct Hs as [Hs|Hs]; congruence. }
  cbn [queue withIsProcessing].
  apply untouched_loop.
  - intros item Hin. by apply list_elem_of_fmap_2.
  - intros i Hin _. by left.
Qed.

Lemma processQueue_selects_snapshot_witness :
  let r := Sample.retry in
  let o := run Sample.allSucceed Sample.lateUpload (processQueue r) r 0 in
  isProcessing r = false
  ∧ requests (trace o) = requestOf r <$> itemsToProcess r
  ∧ promises o = 0 + length (itemsToProcess r)
  ∧ (∀ item, item ∈ itemsToProcess r
             ↔ item ∈ queue r ∧ (status item = idle ∨ status item = error_))
  ∧ (∀ item, item ∈ queue r →
             status item = success ∨ status item = processing →
             item ∉ itemsToProcess r)
  ∧ untouched (itemsToProcess r) (queue r) (queue (final o)).
Proof.
  split; [reflexivity|].
  apply (processQueue_selects_snapshot Sample.allSucceed Sample.lateUpload
           Sample.retry Sample.retry 0).
  reflexivity.
Defined.

(** The upload that arrived during that run is still waiting after it. *)
Example late_upload_still_idle :
  queue (final (run Sample.allSucceed Sample.lateUpload
                  (processQueue Sample.retry) Sample.retry 0)) !! 2
  = Some (mkBatchItem "late" Sample.photo None idle None None).
Proof. reflexivity. Qed.

(** ** A run on a page nobody touches *)

Lemma turn_id item c i : id (turn item c i) = id i.
Proof. unfold turn. case_decide; [|done]. by destruct c. Qed.

Lemma turns_id oracle items n i : id (turns oracle items n i) = id i.
Proof.
  revert n i. induction items as [|item rest IH]; intros n i; [done|].
  simpl. by rewrite IH, turn_id.
Qed.

(** Turns for other ids leave an entry as it is. *)
Lemma turns_other oracle items n i :
  id i ∉ id <$> items → turns oracle items n i = i.
Proof.
  revert n i. induction items as [|item rest IH]; intros n i Hnot; [done|].
  rewrite fmap_cons in Hnot. apply not_elem_of_cons in Hnot as [Hne Hnot].
  simpl. unfold turn. rewrite decide_False by done. by apply IH.
Qed.

Lemma turns_all_success oracle items n i :
  (∀ k, k < length items → ∃ v, refined (oracle (n + k)) = Normal v) →
  id i ∈ id <$> items →
  status (turns oracle items n i) = success.
Proof.
  revert n i. induction items as [|item rest IH]; intros n i Hok Hin.
  { by apply elem_of_nil in Hin. }
  destruct (Hok 0) as [v Hv]; [simpl; lia|]. rewrite Nat.add_0_r in Hv.
  simpl. rewrite Hv.
  assert (∀ k, k < length rest → ∃ v, refined (oracle (S n + k)) = Normal v)
    as Hok'.
  { intros k Hk. replace (S n + k) with (n + S k) by lia.
    apply Hok. simpl. lia. }
  destruct (decide (id i ∈ id <$> rest)) as [Hrest|Hrest].
  - apply IH; [done|]. by rewrite turn_id.
  - rewrite fmap_cons in Hin. apply elem_of_cons in Hin as [Heq|?]; [|done].
    rewrite turns_other by (by rewrite turn_id).
    unfold turn. by rewrite decide_True.
Qed.

(** With distinct ids, only the turn of its own id touches an entry. *)
Lemma turns_selected oracle items n k item i :
  NoDup (id <$> items) →
  items !! k = Some item →
  id i = id item →
  turns oracle items n i = turn item (refined (oracle (n + k))) i.
Proof.
  revert n k i. induction items as [|it rest IH]; intros n k i Hnd Hk Hi.
  { done. }
  rewrite fmap_cons in Hnd. apply NoDup_cons in Hnd as [Hfresh Hnd].
  destruct k as [|k]; simpl in Hk.
  - simplify_eq. rewrite Nat.add_0_r. simpl.
    by rewrite turns_other by (by rewrite turn_id, Hi).
  - assert (id item ∈ id <$> rest) as Hin.
    { apply list_elem_of_fmap_2. by eapply list_elem_of_lookup_2. }
    simpl. unfold turn at 1. rewrite decide_False by congruence.
    replace (n + S k) with (S n + k) by lia. by apply IH.
Qed.

Lemma turns_failed oracle items n k item e i :
  NoDup (id <$> items) →
  items !! k = Some item →
  refined (oracle (n + k)) = Abrupt e →
  id i = id item →
  status (turns oracle items n i) = error_
  ∧ errorMessage (turns oracle items n i) = Some (messageOrFailed e).
Proof.
  intros Hnd Hk He Hi. rewrite (turns_selected _ _ _ k item) by done.
  rewrite He. unfold turn. by rewrite decide_True.
Qed.

Lemma recorded_quiet oracle item st n :
  recorded oracle quiet item st n
  = withQueue (turn item (refined (oracle n)) <$> queue st) st.
Proof.
  unfold recorded, settled, sent, record, mapItem, turn, withQueue. simpl.
  f_equal.
  destruct (refined (oracle n)) as [v|e];
    rewrite <- list_fmap_compose; apply list_fmap_ext; intros _ i _; simpl;
    destruct (decide (id i = id item)) as [Heq|Hne]; simpl;
    by rewrite ?decide_True, ?decide_False by done.
Qed.

Lemma loop_quiet_final oracle r items st n :
  final (loop oracle quiet r items st n)
  = withQueue (turns oracle items n <$> queue st) st.
Proof.
  revert st n. induction items as [|item rest IH]; intros st n.
  - simpl. destruct st; simpl. by rewrite list_fmap_id.
  - rewrite loop_cons. cbn [emit final]. rewrite IH, recorded_quiet.
    destruct st; simpl. by rewrite <- list_fmap_compose.
Qed.

Lemma processQueue_quiet_queue oracle r st n :
  isProcessing r = false →
  queue (final (run oracle quiet (processQueue r) st n))
  = turns oracle (itemsToProcess r) n <$> queue st.
Proof.
  intros Hr. rewrite run_processQueue by done. cbv zeta. cbn [final].
  by rewrite loop_quiet_final.
Qed.

Lemma messageOrFailed_spec e :
  (∀ m, message e = Some m → m ≠ "" → messageOrFailed e = m)
  ∧ (message e = None ∨ message e = Some "" → messageOrFailed e = "Failed").
Proof.
  unfold messageOrFailed. split.
  - intros m -> Hm. by destruct m.
  - by intros [->| ->].
Qed.

(** C4: a run never throws, whatever the calls do; it sends a request for
    every selected item and ends by lowering [isProcessing]; a turn whose
    call fails completes normally and leaves every entry with the item's id
    at 'error' with [errorMessage] the error's message, or "Failed" when
    the message is missing or empty; and, ids being distinct and the page
    left alone, that entry is still so at the end of the run. *)
Theorem failures_are_isolated oracle env r st n :
  isProcessing r = false →
  let o := run oracle env (processQueue r) st n in
  completion o = Normal tt
  ∧ requests (trace o) = requestOf r <$> itemsToProcess r
  ∧ promises o = n + length (itemsToProcess r)
  ∧ isProcessing (final o) = false
  ∧ last (trace o) = Some (EvIsProcessing false)
  ∧ (∀ item st' k e,
       refined (oracle k) = Abrupt e →
       let o' := run oracle env (processItem r item) st' k in
       completion o' = Normal tt
       ∧ ∀ i, i ∈ queue (final o') → id i = id item →
              status i = error_ ∧ errorMessage i = Some (messageOrFailed e))
  ∧ (∀ e, (∀ m, message e = Some m → m ≠ "" → messageOrFailed e = m)
          ∧ (message e = None ∨ message e = Some "" →
             messageOrFailed e = "Failed"))
  ∧ (NoDup (id <$> itemsToProcess r) →
     ∀ k item e,
       itemsToProcess r !! k = Some item →
       refined (oracle (n + k)) = Abrupt e →
       let q := queue (final (run oracle quiet (processQueue r) st n)) in
       id <$> q = id <$> queue st
       ∧ ∀ i, i ∈ q → id i = id item →
              status i = error_ ∧ errorMessage i = Some (messageOrFailed e)).
Proof.
  intros Hr o. subst o.
  split; [by rewrite run_processQueue|].
  split; [by apply requests_processQueue|].
  split; [rewrite run_processQueue by done; apply loop_promises|].
  split; [by rewrite run_processQueue|].
  split.
  { rewrite run_processQueue by done. cbv zeta. cbn [trace].
    by rewrite app_comm_cons, last_snoc. }
  split.
  { intros item st' k e He. cbv zeta. rewrite run_processItem.
    split; [done|]. cbn [final]. unfold recorded. rewrite He.
    cbn [queue withQueue record]. intros i Hin Hid.
    unfold mapItem in Hin. apply list_elem_of_fmap in Hin as (i0 & -> & _).
    case_decide as Heq; [done|]. by destruct Heq. }
  split; [apply messageOrFailed_spec|].
  intros Hnd k item e Hk He. cbv zeta.
  rewrite processQueue_quiet_queue by done.
  split.
  { rewrite <- list_fmap_compose. apply list_fmap_ext. intros _ i _.
    apply turns_id. }
  intros i Hin Hid. apply list_elem_of_fmap in Hin as (i0 & -> & _).
  rewrite turns_id in Hid. by eapply turns_failed.
Qed.

Lemma failures_are_isolated_witness :
  let r := Sample.three in
  let oracle := Sample.secondFails in
  let env := Sample.lateUpload in
  let o := run oracle env (processQueue r) r 0 in
  isProcessing r = false
  ∧ completion o = Normal tt
  ∧ requests (trace o) = requestOf r <$> itemsToProcess r
  ∧ promises o = 0 + length (itemsToProcess r)
  ∧ isProcessing (final o) = false
  ∧ last (trace o) = Some (EvIsProcessing false)
  ∧ (∀ item st' k e,
       refined (oracle k) = Abrupt e →
       let o' := run oracle env (processItem r item) st' k in
       completion o' = Normal tt
       ∧ ∀ i, i ∈ queue (final o') → id i = id item →
              status i = error_ ∧ errorMessage i = Some (messageOrFailed e))
  ∧ (∀ e, (∀ m, message e = Some m → m ≠ "" → messageOrFailed e = m)
          ∧ (message e = None ∨ message e = Some "" →
             messageOrFailed e = "Failed"))
  ∧ (NoDup (id <$> itemsToProcess r) →
     ∀ k item e,
       itemsToProcess r !! k = Some item →
       refined (oracle (0 + k)) = Abrupt e →
       let q := queue (final (run oracle quiet (processQueue r) r 0)) in
       id <$> q = id <$> queue r
       ∧ ∀ i, i ∈ q → id i = id item →
              status i = error_ ∧ errorMessage i = Some (messageOrFailed e)).
Proof.
  split; [reflexivity|].
  apply (failures_are_isolated Sample.secondFails Sample.lateUpload
           Sample.three Sample.three 0).
  reflexivity.
Defined.

(** Three uploads, the second call rejected: the first and the third item
    end at 'success' with a data URL, the second at 'error' with the
    service's message. *)
Example three_items_second_fails :
  (λ i, (id i, status i, generated i, errorMessage i))
    <$> queue (final (run Sample.secondFails quiet
                        (processQueue Sample.three) Sample.three 0))
  = [ ("a", success, Some "data:image/png;base64,UE5H", None);
      ("b", error_, None, Some "quota exceeded");
      ("c", success, Some "data:image/png;base64,UE5H", None) ].
Proof. reflexivity. Qed.

(** A rejection that carries no message is recorded as "Failed". *)
Example failure_without_message :
  (λ i, (status i, errorMessage i))
    <$> queue (final (run (λ _, Rejected (mkJsError "Error" None)) quiet
                        (processQueue Sample.three) Sample.three 0))
  = [ (error_, Some "Failed"); (error_, Some "Failed"); (error_, Some "Failed") ].
Proof. reflexivity. Qed.

Lemma withIsProcessing_same st :
  withIsProcessing (isProcessing st) st = st.
Proof. by destruct st. Qed.

(** C5: on a page nobody touches, when every call of a run succeeds, every
    entry with a selected id is 'success' after it and every selected id is
    still in the queue; the queue then holds nothing to select, so a second
    run sends no request, creates no promise and leaves the store as the
    first run left it. *)
Theorem second_run_does_nothing oracle oracle' st n :
  isProcessing st = false →
  (∀ k, k < length (itemsToProcess st) →
        ∃ v, refined (oracle (n + k)) = Normal v) →
  let o1 := run oracle quiet (processQueue st) st n in
  let o2 := run oracle' quiet (processQueue (final o1)) (final o1) (promises o1) in
  (∀ item i, item ∈ itemsToProcess st → i ∈ queue (final o1) →
             id i = id item → status i = success)
  ∧ (∀ item, item ∈ itemsToProcess st → id item ∈ id <$> queue (final o1))
  ∧ isProcessing (final o1) = false
  ∧ itemsToProcess (final o1) = []
  ∧ requests (trace o2) = []
  ∧ promises o2 = promises o1
  ∧ final o2 = final o1.
Proof.
  intros Hst Hok o1 o2.
  assert (queue (final o1) = turns oracle (itemsToProcess st) n <$> queue st)
    as Hq by (by apply processQueue_quiet_queue).
  assert (isProcessing (final o1) = false) as Hidle.
  { subst o1. by rewrite run_processQueue. }
  assert (itemsToProcess (final o1) = []) as Hnone.
  { apply elem_of_nil_inv. intros i Hin. unfold itemsToProcess in Hin.
    apply list_elem_of_filter in Hin as [Hs Hin]. rewrite Hq in Hin.
    apply list_elem_of_fmap in Hin as (i0 & -> & Hi0).
    destruct (decide (id i0 ∈ id <$> itemsToProcess st)) as [Hsel|Hsel].
    - rewrite (turns_all_success oracle _ n i0 Hok Hsel) in Hs.
      by destruct Hs.
    - rewrite turns_other in Hs by done. apply Hsel.
      apply list_elem_of_fmap_2. unfold itemsToProcess.
      by apply list_elem_of_filter. }
  split.
  { intros item i Hitem Hin Hid. rewrite Hq in Hin.
    apply list_elem_of_fmap in Hin as (i0 & -> & _).
    rewrite turns_id in Hid. apply turns_all_success; [done|].
    rewrite Hid. by apply list_elem_of_fmap_2. }
  split.
  { intros item Hitem. rewrite Hq, <- list_fmap_compose.
    replace (id ∘ turns oracle (itemsToProcess st) n <$> queue st)
      with (id <$> queue st)
      by (apply list_fmap_ext; intros _ i _; symmetry; apply turns_id).
    apply list_elem_of_fmap_2. unfold itemsToProcess in Hitem.
    by apply list_elem_of_filter in Hitem as [_ ?]. }
  split; [done|]. split; [done|].
  subst o2. rewrite run_processQueue by done. rewrite Hnone.
  cbv zeta. cbn [loop for_of run trace promises final app].
  split; [done|]. split; [done|].
  rewrite <- Hidle at 1. by destruct (final o1).
Qed.

Lemma second_run_does_nothing_witness :
  let st := Sample.retry in
  let oracle := Sample.allSucceed in
  let o1 := run oracle quiet (processQueue st) st 0 in
  let o2 := run oracle quiet (processQueue (final o1)) (final o1) (promises o1) in
  isProcessing st = false
  ∧ (∀ k, k < length (itemsToProcess st) →
          ∃ v, refined (oracle (0 + k)) = Normal v)
  ∧ (∀ item i, item ∈ itemsToProcess st → i ∈ queue (final o1) →
               id i = id item → status i = success)
  ∧ (∀ item, item ∈ itemsToProcess st → id item ∈ id <$> queue (final o1))
  ∧ isProcessing (final o1) = false
  ∧ itemsToProcess (final o1) = []
  ∧ requests (trace o2) = []
  ∧ promises o2 = promises o1
  ∧ final o2 = final o1.
Proof.
  assert (∀ k, k < length (itemsToProcess Sample.retry) →
               ∃ v, refined (Sample.allSucceed (0 + k)) = Normal v) as Hok.
  { intros k _. eexists. reflexivity. }
  split; [reflexivity|]. split; [exact Hok|].
  exact (second_run_does_nothing Sample.allSucceed Sample.allSucceed
           Sample.retry 0 eq_refl Hok).
Defined.

(** ** The generated image *)

Lemma refined_Normal o v :
  refined o = Normal v →
  ∃ d, d ≠ "" ∧ v = Some ("data:image/png;base64," +:+ d).
Proof. destruct o; simpl; [apply extractImage_Normal|done]. Qed.

(** On a page nobody touches and with distinct ids, a run keeps
    "[generated] is set exactly on 'success' entries". *)
Lemma generated_iff_success_kept oracle st n :
  isProcessing st = false →
  NoDup (id <$> queue st) →
  (∀ i, i ∈ queue st → generated i ≠ None ↔ status i = success) →
  ∀ i, i ∈ queue (final (run oracle quiet (processQueue st) st n)) →
       generated i ≠ None ↔ status i = success.
Proof.
  intros Hst Hnd Hinv i Hin.
  rewrite processQueue_quiet_queue in Hin by done.
  apply list_elem_of_fmap in Hin as (i0 & -> & Hi0).
  assert (i0 ∈ itemsToProcess st ↔ status i0 = idle ∨ status i0 = error_)
    as Hiff.
  { unfold itemsToProcess. rewrite list_elem_of_filter. tauto. }
  destruct (decide (status i0 = idle ∨ status i0 = error_)) as [Hsel|Hsel];
    rewrite <- Hiff in Hsel.
  - apply list_elem_of_lookup_1 in Hsel as Hk. destruct Hk as [k Hk].
    assert (NoDup (id <$> itemsToProcess st)) as Hnd'.
    { apply (sublist_NoDup _ (id <$> queue st)); [done|].
      apply fmap_sublist, sublist_filter. }
    rewrite (turns_selected oracle _ n k i0) by done.
    unfold turn. rewrite decide_True by done.
    assert (generated i0 = None) as Hnone.
    { unfold itemsToProcess in Hsel. apply list_elem_of_filter in Hsel as [Hs _].
      destruct (generated i0) eqn:Hg; [|done].
      assert (status i0 = success) by (apply Hinv; [done|by rewrite Hg]).
      destruct Hs; congruence. }
    destruct (refined (oracle (n + k))) as [v|e] eqn:Hr; simpl.
    + apply refined_Normal in Hr as (d & _ & ->). done.
    + rewrite Hnone. split; done.
  - assert (id i0 ∉ id <$> itemsToProcess st) as Hnot.
    { intros Hid. apply list_elem_of_fmap in Hid as (item & Hid & Hitem).
      apply Hsel. replace i0 with item; [done|].
      unfold itemsToProcess in Hitem.
      apply list_elem_of_filter in Hitem as [_ Hitem].
      apply list_elem_of_lookup_1 in Hitem as [a Ha].
      apply list_elem_of_lookup_1 in Hi0 as [b Hb].
      assert (a = b) as ->; [|congruence].
      apply (NoDup_lookup (id <$> queue st) a b (id i0)); [done|..];
        rewrite list_lookup_fmap, ?Ha, ?Hb; simpl; congruence. }
    rewrite turns_other by done. by apply Hinv.
Qed.

(** ** The stale error message *)

(** Neither of the two writes of a successful turn touches
    [errorMessage]: the first one clears a property named [error]. *)
Lemma success_keeps_errorMessage result i :
  errorMessage (withProcessing i) = errorMessage i
  ∧ errorMessage (withSuccess result (withProcessing i)) = errorMessage i
  ∧ error (withProcessing i) = None.
Proof. done. Qed.

(** C2: a failed entry that is retried and whose call succeeds: it goes
    through 'processing' to 'success', but the message of the earlier
    failure is still on it during the call and after the run. *)
Theorem retried_item_keeps_errorMessage :
  let o := run Sample.allSucceed quiet (processQueue Sample.retry) Sample.retry 0 in
  head (queue Sample.retry)
  = Some (mkBatchItem "a" Sample.photo None error_ (Some "quota exceeded") None)
  ∧ trace o !! 1
    = Some (EvQueue
        [ mkBatchItem "a" Sample.photo None processing (Some "quota exceeded") None;
          mkBatchItem "b" Sample.photo None idle None None ])
  ∧ head (queue (final o))
    = Some (mkBatchItem "a" Sample.photo (Some "data:image/png;base64,UE5H")
              success (Some "quota exceeded") None).
Proof. repeat split; reflexivity. Qed.

(** C1: a state the page reaches from its initial state (an upload, a run
    whose call is rejected, a second upload, a run whose calls succeed)
    holds an entry that is 'success', has a generated image, and has an
    [errorMessage]. *)
Theorem reachable_success_with_errorMessage :
  Sample.uploaded1
  = mkApp [mkBatchItem "a" Sample.photo None idle None None] "" SQUARE false
  ∧ queue (final Sample.run1)
    = [mkBatchItem "a" Sample.photo None error_ (Some "quota exceeded") None]
  ∧ queue (final Sample.run2)
    = [ mkBatchItem "a" Sample.photo (Some "data:image/png;base64,UE5H")
          success (Some "quota exceeded") None;
        mkBatchItem "b" Sample.photo (Some "data:image/png;base64,UE5H")
          success None None ]
  ∧ ∃ i, i ∈ queue (final Sample.run2)
         ∧ status i = success
         ∧ generated i ≠ None
         ∧ errorMessage i ≠ None.
Proof.
  repeat split; try reflexivity.
  eexists. split; [apply list_elem_of_here|]. by repeat split.
Qed.

(** * Further properties of the code *)

(** ** Uploading and deleting *)

Lemma filter_imap_idle (f : nat → string) (imgs : list string) :
  filter (λ item, status item = idle ∨ status item = error_)
    (imap (λ k img, mkBatchItem (f k) img None idle None None) imgs)
  = imap (λ k img, mkBatchItem (f k) img None idle None None) imgs.
Proof.
  revert f. induction imgs as [|img imgs IH]; intros f; [done|].
  cbn [imap]. rewrite filter_cons_True by (by left). f_equal.
  apply (IH (f ∘ S)).
Qed.

Lemma fmap_imap_original {B : Type} (g : string → B) (f : nat → string)
    (imgs : list string) :
  (λ item, g (original item))
    <$> imap (λ k img, mkBatchItem (f k) img None idle None None) imgs
  = g <$> imgs.
Proof.
  revert f. induction imgs as [|img imgs IH]; intros f; [done|].
  cbn [imap fmap list_fmap]. f_equal. apply (IH (f ∘ S)).
Qed.

Lemma itemsToProcess_handleImagesSelect randomUUID imgs st :
  itemsToProcess (handleImagesSelect randomUUID imgs st)
  = itemsToProcess st
    ++ imap (λ k img, mkBatchItem (randomUUID k) img None idle None None) imgs.
Proof.
  unfold itemsToProcess, handleImagesSelect. cbn [queue withQueue].
  by rewrite filter_app, filter_imap_idle.
Qed.

(** X1: a run started right after an upload sends, after the requests of
    the items that were already waiting or failed, one request per uploaded
    image, in upload order, each carrying that image with the selected
    instruction and ratio. *)
Theorem upload_then_run oracle env randomUUID imgs st n :
  isProcessing st = false →
  let st' := handleImagesSelect randomUUID imgs st in
  let o := run oracle env (processQueue st') st' n in
  requests (trace o)
  = ((requestOf st <$> itemsToProcess st)
     ++ ((λ img, refineRequest img (customPrompt st) (aspectRatio st)) <$> imgs))
  ∧ promises o = n + length (itemsToProcess st) + length imgs.
Proof.
  intros Hst st' o. subst o.
  assert (isProcessing st' = false) as Hst' by done.
  split.
  - rewrite requests_processQueue by done. subst st'.
    rewrite itemsToProcess_handleImagesSelect, fmap_app. f_equal.
    unfold requestOf. cbn [customPrompt aspectRatio handleImagesSelect withQueue].
    apply (fmap_imap_original
             (λ img, refineRequest img (customPrompt st) (aspectRatio st))).
  - rewrite run_processQueue by done. cbv zeta. cbn [promises].
    rewrite loop_promises. subst st'.
    rewrite itemsToProcess_handleImagesSelect, length_app, length_imap. lia.
Qed.

Lemma upload_then_run_witness :
  let st := Demo.afterFailure in
  let imgs := [Sample.photo; "data:image/png;base64,WFla"] in
  let st' := handleImagesSelect Demo.uuids imgs st in
  let o := run Sample.allSucceed Sample.lateUpload (processQueue st') st' 0 in
  isProcessing st = false
  ∧ requests (trace o)
    = ((requestOf st <$> itemsToProcess st)
       ++ ((λ img, refineRequest img (customPrompt st) (aspectRatio st)) <$> imgs))
  ∧ promises o = 0 + length (itemsToProcess st) + length imgs.
Proof.
  split; [reflexivity|].
  apply (upload_then_run Sample.allSucceed Sample.lateUpload Demo.uuids
           [Sample.photo; "data:image/png;base64,WFla"] Demo.afterFailure 0).
  reflexivity.
Defined.

Lemma filter_all {A : Type} (P : A → Prop) `{∀ x, Decision (P x)} (l : list A) :
  (∀ x, x ∈ l → P x) → filter P l = l.
Proof.
  induction l as [|x l IH]; intros Hall; [done|].
  rewrite filter_cons_True by (apply Hall; by left).
  f_equal. apply IH. intros y Hy. apply Hall. by right.
Qed.

Lemma withQueue_same st : withQueue (queue st) st = st.
Proof. by destruct st. Qed.

(** X2: [handleDeleteItem] removes the entries that carry the id and no
    other, keeping the order of the rest; an id that is not in the queue
    leaves the store as it is; deleting twice is deleting once, and two
    deletions commute. *)
Theorem handleDeleteItem_removes_id id0 st :
  let st' := handleDeleteItem id0 st in
  (∀ i, i ∈ queue st' ↔ i ∈ queue st ∧ id i ≠ id0)
  ∧ queue st' `sublist_of` queue st
  ∧ (id0 ∉ id <$> queue st → st' = st)
  ∧ handleDeleteItem id0 st' = st'
  ∧ (∀ id1, handleDeleteItem id1 st'
            = handleDeleteItem id0 (handleDeleteItem id1 st)).
Proof.
  cbv zeta. unfold handleDeleteItem. cbn [queue withQueue].
  split; [intros i; rewrite list_elem_of_filter; tauto|].
  split; [apply sublist_filter|].
  split.
  { intros Hnot. rewrite filter_all; [apply withQueue_same|].
    intros i Hi Heq. apply Hnot. rewrite <- Heq. by apply list_elem_of_fmap_2. }
  split.
  { unfold withQueue. cbn. f_equal. apply filter_all.
    intros i Hi. by apply list_elem_of_filter in Hi as [? _]. }
  intros id1. unfold withQueue. cbn. f_equal.
  rewrite !list_filter_filter. apply list_filter_iff. tauto.
Qed.

Lemma length_delete_one (l : list BatchItem) (item : BatchItem) :
  NoDup (id <$> l) → item ∈ l →
  length (filter (λ i, id i ≠ id item) l) + 1 = length l.
Proof.
  induction l as [|x l IH]; intros Hnd Hin.
  { by apply elem_of_nil in Hin. }
  rewrite fmap_cons in Hnd. apply NoDup_cons in Hnd as [Hx Hnd].
  apply elem_of_cons in Hin as [->|Hin].
  - rewrite filter_cons_False by (intros Hne; by apply Hne).
    rewrite filter_all; [simpl; lia|].
    intros i Hi Heq. apply Hx. rewrite <- Heq. by apply list_elem_of_fmap_2.
  - rewrite filter_cons_True.
    + simpl. rewrite <- (IH Hnd Hin). lia.
    + intros Heq. apply Hx. rewrite Heq. by apply list_elem_of_fmap_2.
Qed.

(** X3: when the ids in the queue are distinct, deleting the id of an
    entry removes that entry and shortens the queue by exactly one. *)
Theorem handleDeleteItem_one_card st item :
  NoDup (id <$> queue st) →
  item ∈ queue st →
  let st' := handleDeleteItem (id item) st in
  (item ∉ queue st')
  ∧ length (queue st') + 1 = length (queue st)
  ∧ (∀ i, i ∈ queue st → i ≠ item → i ∈ queue st').
Proof.
  intros Hnd Hin st'. subst st'. unfold handleDeleteItem. cbn [queue withQueue].
  split; [|split].
  - intros Hin'. by apply list_elem_of_filter in Hin' as [Hne _].
  - by apply length_delete_one.
  - intros i Hi Hne. apply list_elem_of_filter. split; [|done].
    intros Heq. apply Hne.
    apply list_elem_of_lookup_1 in Hi as [a Ha].
    apply list_elem_of_lookup_1 in Hin as [b Hb].
    assert (a = b) as ->; [|congruence].
    apply (NoDup_lookup (id <$> queue st) a b (id item)); [done|..];
      rewrite list_lookup_fmap, ?Ha, ?Hb; simpl; congruence.
Qed.

Lemma handleDeleteItem_one_card_witness :
  let st := Sample.three in
  let item := Sample.item "b" idle None None in
  let st' := handleDeleteItem (id item) st in
  NoDup (id <$> queue st)
  ∧ item ∈ queue st
  ∧ (item ∉ queue st')
  ∧ length (queue st') + 1 = length (queue st)
  ∧ (∀ i, i ∈ queue st → i ≠ item → i ∈ queue st').
Proof.
  assert (NoDup (id <$> queue Sample.three)) as Hnd.
  { apply (bool_decide_unpack _). vm_compute. exact I. }
  assert (Sample.item "b" idle None None ∈ queue Sample.three) as Hin.
  { cbn. apply list_elem_of_further, list_elem_of_here. }
  split; [exact Hnd|]. split; [exact Hin|].
  exact (handleDeleteItem_one_card Sample.three _ Hnd Hin).
Defined.

(** ** The start button and the state a run leaves *)

Lemma turns_settled oracle items n i :
  id i ∈ id <$> items →
  status (turns oracle items n i) = success
  ∨ status (turns oracle items n i) = error_.
Proof.
  revert n i. induction items as [|item rest IH]; intros n i Hin.
  { by apply elem_of_nil in Hin. }
  simpl.
  destruct (decide (id i ∈ id <$> rest)) as [Hrest|Hrest].
  - apply IH. by rewrite turn_id.
  - rewrite fmap_cons in Hin. apply elem_of_cons in Hin as [Heq|?]; [|done].
    rewrite turns_other by (by rewrite turn_id).
    unfold turn. rewrite decide_True by done.
    destruct (refined (oracle n)); [by left|by right].
Qed.

Lemma pendingCount_zero st :
  (∀ i, i ∈ queue st → status i ≠ idle) → pendingCount st = 0.
Proof.
  intros Hno. unfold pendingCount.
  replace (filter (λ i, status i = idle) (queue st)) with (@nil BatchItem);
    [done|].
  symmetry. apply elem_of_nil_inv. intros i Hi.
  apply list_elem_of_filter in Hi as [Hs Hi]. by apply (Hno i).
Qed.

(** X4: when the start button is not disabled, the page is not processing,
    the queue holds an 'idle' item, and the run that the button starts
    sends at least one request. *)
Theorem start_enabled_run_sends oracle env st n :
  startDisabled st = false →
  let o := run oracle env (processQueue st) st n in
  isProcessing st = false
  ∧ (∃ item, item ∈ itemsToProcess st ∧ status item = idle)
  ∧ requests (trace o) ≠ []
  ∧ n < promises o.
Proof.
  intros Hen o. subst o. unfold startDisabled in Hen.
  apply orb_false_iff in Hen as [Hst Hpend].
  apply bool_decide_eq_false in Hpend.
  assert (∃ item, item ∈ itemsToProcess st ∧ status item = idle)
    as (item & Hitem & Hidle).
  { unfold pendingCount in Hpend.
    destruct (filter (λ i, status i = idle) (queue st)) as [|item l] eqn:Hf;
      [done|].
    assert (item ∈ filter (λ i, status i = idle) (queue st)) as Hin
      by (rewrite Hf; by left).
    apply list_elem_of_filter in Hin as [Hs Hin].
    exists item. split; [|done]. unfold itemsToProcess.
    apply list_elem_of_filter. split; [by left|done]. }
  split; [done|]. split; [by exists item|].
  split.
  - rewrite requests_processQueue by done.
    destruct (itemsToProcess st); [by apply elem_of_nil in Hitem|done].
  - rewrite run_processQueue by done. cbv zeta. cbn [promises].
    rewrite loop_promises.
    destruct (itemsToProcess st); [by apply elem_of_nil in Hitem|simpl; lia].
Qed.

Lemma start_enabled_run_sends_witness :
  let st := Sample.retry in
  let o := run Sample.firstFails Sample.lateUpload (processQueue st) st 0 in
  startDisabled st = false
  ∧ isProcessing st = false
  ∧ (∃ item, item ∈ itemsToProcess st ∧ status item = idle)
  ∧ requests (trace o) ≠ []
  ∧ 0 < promises o.
Proof.
  split; [reflexivity|].
  apply (start_enabled_run_sends Sample.firstFails Sample.lateUpload
           Sample.retry 0).
  reflexivity.
Defined.

Lemma quiet_run_none_idle oracle st n i :
  isProcessing st = false →
  i ∈ queue (final (run oracle quiet (processQueue st) st n)) →
  status i ≠ idle.
Proof.
  intros Hst Hin. rewrite processQueue_quiet_queue in Hin by done.
  apply list_elem_of_fmap in Hin as (i0 & -> & Hi0).
  destruct (decide (id i0 ∈ id <$> itemsToProcess st)) as [Hsel|Hsel].
  - by destruct (turns_settled oracle _ n i0 Hsel) as [-> | ->].
  - rewrite turns_other by done. intros Hidle. apply Hsel.
    apply list_elem_of_fmap_2. unfold itemsToProcess.
    apply list_elem_of_filter. split; [by left|done].
Qed.

Lemma quiet_run_start_disabled oracle st n :
  isProcessing st = false →
  startDisabled (final (run oracle quiet (processQueue st) st n)) = true.
Proof.
  intros Hst. unfold startDisabled.
  rewrite pendingCount_zero; [apply orb_true_r|].
  intros i. by apply quiet_run_none_idle.
Qed.

(** X5: on a page nobody touches, a run started from the current state
    leaves no 'idle' entry, whatever the calls did: the pending count is 0
    and the start button is disabled once the run is over. *)
Theorem run_leaves_nothing_waiting oracle st n :
  isProcessing st = false →
  let o := run oracle quiet (processQueue st) st n in
  (∀ i, i ∈ queue (final o) → status i ≠ idle)
  ∧ pendingCount (final o) = 0
  ∧ startDisabled (final o) = true.
Proof.
  intros Hst o. subst o.
  assert (∀ i, i ∈ queue (final (run oracle quiet (processQueue st) st n)) →
               status i ≠ idle) as Hno.
  { intros i. by apply quiet_run_none_idle. }
  split; [done|].
  split; [by apply pendingCount_zero|by apply quiet_run_start_disabled].
Qed.

Lemma run_leaves_nothing_waiting_witness :
  let st := Sample.three in
  let o := run Sample.secondFails quiet (processQueue st) st 0 in
  isProcessing st = false
  ∧ (∀ i, i ∈ queue (final o) → status i ≠ idle)
  ∧ pendingCount (final o) = 0
  ∧ startDisabled (final o) = true.
Proof.
  split; [reflexivity|].
  apply (run_leaves_nothing_waiting Sample.secondFails Sample.three 0).
  reflexivity.
Defined.

(** X6: with distinct ids and a page nobody touches, an item whose call
    failed is, after the run, an 'error' entry that the next run would
    select, and the start button is disabled: failed items are retried
    only once another image has been uploaded. *)
Theorem failed_item_waits_for_an_upload oracle st n k item e :
  isProcessing st = false →
  NoDup (id <$> itemsToProcess st) →
  itemsToProcess st !! k = Some item →
  refined (oracle (n + k)) = Abrupt e →
  let o := run oracle quiet (processQueue st) st n in
  (∃ i, i ∈ itemsToProcess (final o) ∧ id i = id item ∧ status i = error_)
  ∧ startDisabled (final o) = true.
Proof.
  intros Hst Hnd Hk He o. subst o.
  split.
  - exists (turns oracle (itemsToProcess st) n item).
    destruct (turns_failed oracle _ n k item e item Hnd Hk He eq_refl)
      as [Hs _].
    split; [|split; [apply turns_id|done]].
    unfold itemsToProcess at 1. apply list_elem_of_filter.
    split; [by right|].
    rewrite processQueue_quiet_queue by done.
    apply list_elem_of_fmap_2.
    apply list_elem_of_lookup_2 in Hk. unfold itemsToProcess in Hk.
    by apply list_elem_of_filter in Hk as [_ ?].
  - by apply quiet_run_start_disabled.
Qed.

Lemma failed_item_waits_for_an_upload_witness :
  let st := Sample.three in
  let item := Sample.item "b" idle None None in
  let e := mkJsError "ApiError" (Some "quota exceeded") in
  let o := run Sample.secondFails quiet (processQueue st) st 0 in
  isProcessing st = false
  ∧ NoDup (id <$> itemsToProcess st)
  ∧ itemsToProcess st !! 1 = Some item
  ∧ refined (Sample.secondFails (0 + 1)) = Abrupt e
  ∧ (∃ i, i ∈ itemsToProcess (final o) ∧ id i = id item ∧ status i = error_)
  ∧ startDisabled (final o) = true.
Proof.
  assert (NoDup (id <$> itemsToProcess Sample.three)) as Hnd.
  { apply (bool_decide_unpack _). vm_compute. exact I. }
  split; [reflexivity|]. split; [exact Hnd|].
  split; [reflexivity|]. split; [reflexivity|].
  exact (failed_item_waits_for_an_upload Sample.secondFails Sample.three 0 1
           _ _ eq_refl Hnd eq_refl eq_refl).
Defined.

Lemma processingOnly_act x a st :
  processingOnly x (queue st) → processingOnly x (queue (act a st)).
Proof.
  intros Hp. destruct a as [uuid imgs|card| |ratio|value]; cbn [act].
  - intros i Hin Hs. simpl in Hin.
    apply elem_of_app in Hin as [Hin|Hin]; [by apply Hp|].
    apply elem_of_lookup_imap in Hin as (k & img & -> & _). done.
  - destruct (removeButtons st !! card) as [b|] eqn:Hb; [|done].
    unfold removeButtons in Hb.
    apply list_lookup_fmap_Some in Hb as (item & -> & _).
    unfold click, removeButton; cbn [disabled onClick].
    case_bool_decide; [done|].
    intros i Hin. simpl in Hin.
    apply list_elem_of_filter in Hin as [_ Hin]. by apply Hp.
  - unfold clearButton. destruct (bool_decide _ && negb _); [|done].
    intros i Hin. simpl in Hin. by apply elem_of_nil in Hin.
  - by destruct (isProcessing st).
  - by destruct (isProcessing st).
Qed.

Lemma processingOnly_acts x l st :
  processingOnly x (queue st) → processingOnly x (queue (acts l st)).
Proof.
  revert st. induction l as [|a l IH]; intros st Hp; [done|].
  unfold acts in *. cbn [foldl]. apply IH. by apply processingOnly_act.
Qed.

Lemma noneProcessing_recorded oracle env item st n :
  noneProcessing (queue st) →
  noneProcessing (queue (recorded oracle env item st n)).
Proof.
  intros Hno.
  assert (processingOnly (id item) (queue (settled env item st n))) as Hp.
  { unfold settled. apply processingOnly_acts. unfold sent.
    cbn [queue withQueue]. intros i Hin Hs.
    unfold mapItem in Hin. apply list_elem_of_fmap in Hin as (i0 & -> & Hi0).
    case_decide; [done|]. by destruct (Hno i0 Hi0). }
  unfold recorded. cbn [queue withQueue]. intros i Hin Hs.
  assert (∀ f, (∀ j, status (f j) ≠ processing) →
               i ∈ mapItem item f (queue (settled env item st n)) → False)
    as Hmap.
  { intros f Hf Hi. unfold mapItem in Hi.
    apply list_elem_of_fmap in Hi as (i0 & -> & Hi0).
    case_decide as Hid; [by apply (Hf i0)|]. apply Hid. by apply Hp. }
  unfold record in Hin. destruct (refined (oracle n)) as [v|e].
  - by apply (Hmap (withSuccess v)).
  - by apply (Hmap (withError e)).
Qed.

Lemma noneProcessing_loop oracle env r items st n :
  noneProcessing (queue st) →
  noneProcessing (queue (final (loop oracle env r items st n))).
Proof.
  revert st n. induction items as [|item rest IH]; intros st n Hno; [done|].
  rewrite loop_cons. cbn [emit final]. apply IH.
  by apply noneProcessing_recorded.
Qed.

(** X7: whatever the calls do and whatever the user does meanwhile, a run
    that starts on a queue without 'processing' entries ends on a queue
    without 'processing' entries: no item is left stuck in 'processing'. *)
Theorem run_leaves_none_processing oracle env r st n :
  isProcessing r = false →
  noneProcessing (queue st) →
  let o := run oracle env (processQueue r) st n in
  noneProcessing (queue (final o))
  ∧ processingCount (final o) = 0.
Proof.
  intros Hr Hno o. subst o.
  assert (noneProcessing
            (queue (final (run oracle env (processQueue r) st n)))) as Hend.
  { rewrite run_processQueue by done. cbv zeta. cbn [final queue withIsProcessing].
    by apply noneProcessing_loop. }
  split; [done|].
  unfold processingCount.
  replace (filter (λ i, status i = processing)
             (queue (final (run oracle env (processQueue r) st n))))
    with (@nil BatchItem); [done|].
  symmetry. apply elem_of_nil_inv. intros i Hi.
  apply list_elem_of_filter in Hi as [Hs Hi]. by apply (Hend i).
Qed.

Lemma run_leaves_none_processing_witness :
  let st := Sample.three in
  let o := run Sample.secondFails Sample.lateUpload (processQueue st) st 0 in
  isProcessing st = false
  ∧ noneProcessing (queue st)
  ∧ noneProcessing (queue (final o))
  ∧ processingCount (final o) = 0.
Proof.
  assert (noneProcessing (queue Sample.three)) as Hno.
  { intros i Hi. cbn in Hi.
    repeat (apply elem_of_cons in Hi as [->|Hi]; [done|]).
    by apply elem_of_nil in Hi. }
  split; [reflexivity|]. split; [exact Hno|].
  exact (run_leaves_none_processing Sample.secondFails Sample.lateUpload
           Sample.three Sample.three 0 eq_refl Hno).
Defined.

(** X8: while a run is in progress and ids are distinct, nothing the user
    can do on the page (an upload arriving, a Remove click on any card, the
    Clear button, the ratio buttons, the instruction box) removes an entry
    that is 'processing'. *)
Theorem processing_entry_survives a st i :
  isProcessing st = true →
  NoDup (id <$> queue st) →
  i ∈ queue st →
  status i = processing →
  i ∈ queue (act a st).
Proof.
  intros Hp Hnd Hin Hs. destruct a as [uuid imgs|card| |ratio|value]; cbn [act].
  - simpl. apply elem_of_app. by left.
  - destruct (removeButtons st !! card) as [b|] eqn:Hb; [|done].
    unfold removeButtons in Hb.
    apply list_lookup_fmap_Some in Hb as (item & -> & Hcard).
    unfold click, removeButton; cbn [disabled onClick].
    case_bool_decide as Hitem; [done|].
    simpl. apply list_elem_of_filter. split; [|done].
    intros Heq. apply Hitem.
    apply list_elem_of_lookup_1 in Hin as [j Hj].
    assert (j = card) as ->; [|congruence].
    apply (NoDup_lookup (id <$> queue st) j card (id i)); [done|..];
      rewrite list_lookup_fmap, ?Hj, ?Hcard; simpl; congruence.
  - unfold clearButton. rewrite Hp, andb_false_r. done.
  - by rewrite Hp.
  - by rewrite Hp.
Qed.

Lemma processing_entry_survives_witness :
  let st := Sample.busy in
  let i := Sample.item "a" processing None None in
  isProcessing st = true
  ∧ NoDup (id <$> queue st)
  ∧ i ∈ queue st
  ∧ status i = processing
  ∧ i ∈ queue (act (ClickRemove 1) st)
  ∧ i ∈ queue (act ClickClear st).
Proof.
  assert (NoDup (id <$> queue Sample.busy)) as Hnd.
  { apply (bool_decide_unpack _). vm_compute. exact I. }
  assert (Sample.item "a" processing None None ∈ queue Sample.busy) as Hin.
  { cbn. apply list_elem_of_here. }
  split; [reflexivity|]. split; [exact Hnd|]. split; [exact Hin|].
  split; [reflexivity|].
  split.
  - exact (processing_entry_survives (ClickRemove 1) Sample.busy _
             eq_refl Hnd Hin eq_refl).
  - exact (processing_entry_survives ClickClear Sample.busy _
             eq_refl Hnd Hin eq_refl).
Defined.

Lemma identity_turns oracle items n i :
  identity (turns oracle items n i) = identity i.
Proof.
  revert n i. induction items as [|item rest IH]; intros n i; [done|].
  simpl. rewrite IH. unfold turn. case_decide; [|done].
  by destruct (refined (oracle n)).
Qed.

(** X9: on a page nobody touches, [processQueue] neither adds, removes nor
    reorders entries, and never changes the id or the source image of an
    entry, whether it runs or returns at once. *)
Theorem quiet_run_keeps_identity oracle r st n :
  let o := run oracle quiet (processQueue r) st n in
  identity <$> queue (final o) = identity <$> queue st
  ∧ length (queue (final o)) = length (queue st).
Proof.
  cbv zeta.
  assert (identity <$> queue (final (run oracle quiet (processQueue r) st n))
          = identity <$> queue st) as Hid.
  { destruct (isProcessing r) eqn:Hr.
    - destruct (processQueue_reentrant_noop_aux oracle quiet r st n Hr)
        as [_ ->]. done.
    - rewrite processQueue_quiet_queue by done.
      rewrite <- list_fmap_compose. apply list_fmap_ext. intros _ i _.
      apply identity_turns. }
  split; [done|].
  by rewrite <- (length_fmap identity), Hid, length_fmap.
Qed.

(** ** Strings *)

Lemma append_cons c (a b : string) : String c a +:+ b = String c (a +:+ b).
Proof. reflexivity. Qed.

Lemma append_nil (b : string) : "" +:+ b = b.
Proof. reflexivity. Qed.

Lemma length_append (a b : string) :
  String.length (a +:+ b) = String.length a + String.length b.
Proof.
  induction a as [|c a IH]; [done|].
  rewrite append_cons. simpl. by rewrite IH.
Qed.

Lemma append_assoc (a b c : string) : (a +:+ b) +:+ c = a +:+ b +:+ c.
Proof.
  induction a as [|x a IH]; [done|].
  rewrite !append_cons. by rewrite IH.
Qed.

Lemma append_inj_r (s x y : string) : x +:+ s = y +:+ s → x = y.
Proof.
  revert y. induction x as [|a x IH]; intros [|b y] H;
    rewrite ?append_cons, ?append_nil in H.
  - done.
  - apply (f_equal String.length) in H. simpl in H.
    rewrite length_append in H. lia.
  - apply (f_equal String.length) in H. simpl in H.
    rewrite length_append in H. lia.
  - injection H as -> H. f_equal. by apply IH.
Qed.

Lemma occurs_append c (a b : string) :
  occurs c (a +:+ b) = occurs c a || occurs c b.
Proof.
  induction a as [|x a IH]; [done|].
  rewrite append_cons. simpl. by rewrite IH, orb_assoc.
Qed.

Lemma split_without sep s : occurs sep s = false → Js.split sep s = [s].
Proof.
  induction s as [|c s IH]; simpl; [done|].
  intros [Hc Hs]%orb_false_iff. rewrite Hc, IH by done. done.
Qed.

Lemma split_at_first sep (a b : string) :
  occurs sep a = false →
  Js.split sep (a +:+ String sep b) = a :: Js.split sep b.
Proof.
  induction a as [|c a IH].
  - intros _. rewrite append_nil. simpl. by rewrite Ascii.eqb_refl.
  - intros [Hc Ha]%orb_false_iff.
    rewrite append_cons. simpl. by rewrite Hc, IH.
Qed.

Lemma index_without c s :
  occurs c s = false → String.index 0 (char c) s = None.
Proof.
  induction s as [|x s IH]; simpl; [done|].
  intros [Hx Hs]%orb_false_iff. apply Ascii.eqb_neq in Hx.
  destruct (ascii_dec c x) as [->|_]; [done|]. by rewrite IH.
Qed.

Lemma index_at_first c (a b : string) :
  occurs c a = false →
  String.index 0 (char c) (a +:+ String c b) = Some (String.length a).
Proof.
  induction a as [|x a IH].
  - intros _. rewrite append_nil. simpl.
    destruct (ascii_dec c c); [|done]. by destruct b.
  - intros [Hx Ha]%orb_false_iff. apply Ascii.eqb_neq in Hx.
    rewrite append_cons. simpl.
    destruct (ascii_dec c x) as [->|_]; [done|]. by rewrite IH.
Qed.

Lemma substring_prefix (x r : string) :
  String.substring 0 (String.length x) (x +:+ r) = x.
Proof.
  induction x as [|c x IH]; [by destruct r|].
  rewrite append_cons. simpl. by rewrite IH.
Qed.

Lemma substring_middle (a m r : string) :
  String.substring (String.length a) (String.length m) (a +:+ m +:+ r) = m.
Proof.
  induction a as [|c a IH]; [exact (substring_prefix m r)|].
  rewrite append_cons. simpl. exact IH.
Qed.

(** ** The card: image, error text, download *)

Lemma messageOrFailed_not_empty e : messageOrFailed e ≠ "".
Proof.
  unfold messageOrFailed. destruct (message e) as [[|c m]|]; done.
Qed.

(** X10: [handleDownload] does nothing exactly when the item has no
    generated image (null or empty); otherwise it clicks a link to the
    generated image whose file name is "product-", the item's id, ".png",
    so items with different ids download under different names. *)
Theorem handleDownload_names_files i :
  (handleDownload i = None ↔ generated i = None ∨ generated i = Some "")
  ∧ (∀ a, handleDownload i = Some a →
          generated i = Some (href a)
          ∧ download a = "product-" +:+ id i +:+ ".png")
  ∧ (∀ j a b, handleDownload i = Some a → handleDownload j = Some b →
              download a = download b → id i = id j).
Proof.
  assert (∀ k a, handleDownload k = Some a →
                 generated k = Some (href a)
                 ∧ download a = "product-" +:+ id k +:+ ".png") as Hsome.
  { intros k a. unfold handleDownload.
    destruct (generated k) as [g|]; [|done].
    destruct (Js.truthy g); [|done]. by intros [= <-]. }
  split; [|split; [apply Hsome|]].
  - unfold handleDownload. destruct (generated i) as [[|c g]|]; simpl.
    + split; [by right|done].
    + split; [done|]. by intros [|].
    + split; [by left|done].
  - intros j a b [_ Ha]%Hsome [_ Hb]%Hsome Heq. rewrite Ha, Hb in Heq.
    apply (inj (String.app "product-")) in Heq.
    by apply append_inj_r in Heq.
Qed.

(** X11: whatever [refineProductImage] returns can be shown and saved: an
    item marked 'success' with that result shows the returned image on its
    card, and its download link points to it. *)
Theorem refined_image_downloadable o v i :
  refined o = Normal v →
  ∃ url, v = Some url
         ∧ cardImage (withSuccess v i) = url
         ∧ handleDownload (withSuccess v i)
           = Some (mkAnchor url ("product-" +:+ id i +:+ ".png")).
Proof.
  intros (d & Hd & ->)%refined_Normal. eexists. split; [done|].
  unfold cardImage, handleDownload. simpl. done.
Qed.

Lemma refined_image_downloadable_witness :
  let v := Some "data:image/png;base64,UE5H" in
  let i := Sample.item "a" processing None None in
  refined (Sample.picture "UE5H") = Normal v
  ∧ ∃ url, v = Some url
           ∧ cardImage (withSuccess v i) = url
           ∧ handleDownload (withSuccess v i)
             = Some (mkAnchor url ("product-" +:+ id i +:+ ".png")).
Proof.
  split; [reflexivity|].
  exact (refined_image_downloadable (Sample.picture "UE5H") _
           (Sample.item "a" processing None None) eq_refl).
Defined.

(** X12: the message [processItem] records for a failure is never empty,
    so the error overlay of the card always shows that message and never
    its own fallback text. *)
Theorem recorded_failure_shows_its_message e i :
  messageOrFailed e ≠ ""
  ∧ errorMessage (withError e i) = Some (messageOrFailed e)
  ∧ errorText (withError e i) = messageOrFailed e.
Proof.
  split; [apply messageOrFailed_not_empty|]. split; [done|].
  unfold errorText. simpl.
  pose proof (messageOrFailed_not_empty e) as Hne.
  by destruct (messageOrFailed e).
Qed.

(** ** The service, seen from outside *)

Lemma consoleErrors_app t1 t2 :
  consoleErrors (t1 ++ t2) = consoleErrors t1 ++ consoleErrors t2.
Proof. apply omap_app. Qed.

Lemma consoleErrors_users (l : list UserAction) :
  consoleErrors (EvUser <$> l) = [].
Proof. induction l as [|a l IH]; [done|]. simpl. apply IH. Qed.

(** X13: one call of [refineProductImage] sends exactly one request,
    writes nothing to the React state (the store changes only by what the
    user does meanwhile), rethrows a rejection of the outbound call as it
    is, and logs to the console exactly when it throws, the error it
    throws. *)
Theorem refineProductImage_effects oracle env img instr ratio st n :
  let o := run oracle env (refineProductImage img instr ratio) st n in
  requests (trace o) = [refineRequest img instr ratio]
  ∧ promises o = S n
  ∧ final o = acts (env n) st
  ∧ (∀ reason, oracle n = Rejected reason → completion o = Abrupt reason)
  ∧ consoleErrors (trace o)
    = match completion o with
      | Normal _ => []
      | Abrupt e => [("Gemini API Error:", e)]
      end.
Proof.
  cbv zeta. rewrite run_refineProductImage. cbn [trace promises final completion].
  split.
  { unfold callEvents. rewrite requests_app, requests_cons_request.
    rewrite requests_app, requests_users.
    by destruct (refined (oracle n)). }
  split; [done|]. split; [done|].
  split; [by intros reason ->|].
  unfold callEvents.
  rewrite consoleErrors_app.
  change (consoleErrors (EvRequest n ?r :: ?t)) with (consoleErrors t).
  rewrite consoleErrors_app, consoleErrors_users.
  by destruct (refined (oracle n)).
Qed.

(** ** What the request says about the image *)

Lemma js_substring_in_range s (a b : nat) :
  a ≤ b → b ≤ String.length s →
  Js.substring s (Z.of_nat a) (Z.of_nat b) = String.substring a (b - a) s.
Proof. intros Hab Hb. unfold Js.substring. f_equal; lia. Qed.

Lemma js_substring_to_minus_one s (a : nat) :
  a ≤ String.length s →
  Js.substring s (Z.of_nat a) (-1) = String.substring 0 a s.
Proof. intros Ha. unfold Js.substring. f_equal; lia. Qed.

Lemma indexOf_at_first c (a b : string) :
  occurs c a = false →
  Js.indexOf (char c) (a +:+ String c b) = Z.of_nat (String.length a).
Proof. intros Ha. unfold Js.indexOf. by rewrite index_at_first. Qed.

Lemma indexOf_without c s :
  occurs c s = false → Js.indexOf (char c) s = (-1)%Z.
Proof. intros Hs. unfold Js.indexOf. by rewrite index_without. Qed.

Lemma requestImage_refineRequest s instr ratio :
  requestImage (refineRequest s instr ratio)
  = Some (mkBlob (Js.split "," s !! 1)
            (Some (Js.substring s (Js.indexOf ":" s + 1) (Js.indexOf ";" s)))).
Proof. reflexivity. Qed.

Lemma data_url_parts (mime payload : string) :
  occurs ";" mime = false →
  occurs "," mime = false →
  occurs "," payload = false →
  let s := "data:" +:+ mime +:+ ";base64," +:+ payload in
  Js.split "," s !! 1 = Some payload
  ∧ Js.substring s (Js.indexOf ":" s + 1) (Js.indexOf ";" s) = mime.
Proof.
  intros Hsemi Hcomma Hpay s.
  split.
  - assert (s = ("data:" +:+ mime +:+ ";base64") +:+ String "," payload) as ->.
    { subst s. by rewrite !append_assoc. }
    rewrite split_at_first, split_without; [done|done|].
    by rewrite !occurs_append, Hcomma.
  - assert (Js.indexOf ":" s = Z.of_nat 4) as ->.
    { exact (indexOf_at_first ":" "data" (mime +:+ ";base64," +:+ payload)
               eq_refl). }
    assert (Js.indexOf ";" s = Z.of_nat (5 + String.length mime)) as ->.
    { assert (s = ("data:" +:+ mime) +:+ String ";" ("base64," +:+ payload))
        as -> by (subst s; by rewrite !append_assoc).
      rewrite (indexOf_at_first ";"); [by rewrite length_append|].
      by rewrite occurs_append, Hsemi. }
    change (Z.of_nat 4 + 1)%Z with (Z.of_nat 5).
    rewrite js_substring_in_range.
    + replace (5 + String.length mime - 5) with (String.length mime) by lia.
      exact (substring_middle "data:" mime (";base64," +:+ payload)).
    + lia.
    + subst s. rewrite !length_append. simpl. lia.
Qed.

Lemma refineRequest_reads_data_url_aux mime payload instr ratio :
  occurs ";" mime = false →
  occurs "," mime = false →
  occurs "," payload = false →
  requestImage
    (refineRequest ("data:" +:+ mime +:+ ";base64," +:+ payload) instr ratio)
  = Some (mkBlob (Some payload) (Some mime)).
Proof.
  intros Hsemi Hcomma Hpay. rewrite requestImage_refineRequest.
  by destruct (data_url_parts mime payload Hsemi Hcomma Hpay) as [-> ->].
Qed.

(** X14: for an image given as a data URL, "data:" then a media type then
    ";base64," then the payload (no ';' or ',' in the media type, no ','
    in the payload), the request carries exactly that payload as [data]
    and exactly that media type as [mimeType]. *)
Theorem refineRequest_reads_data_url mime payload instr ratio :
  occurs ";" mime = false →
  occurs "," mime = false →
  occurs "," payload = false →
  requestImage
    (refineRequest ("data:" +:+ mime +:+ ";base64," +:+ payload) instr ratio)
  = Some (mkBlob (Some payload) (Some mime)).
Proof.
  intros Hsemi Hcomma Hpay. rewrite requestImage_refineRequest.
  by destruct (data_url_parts mime payload Hsemi Hcomma Hpay) as [-> ->].
Qed.

Lemma refineRequest_reads_data_url_witness :
  occurs ";" "image/jpeg" = false
  ∧ occurs "," "image/jpeg" = false
  ∧ occurs "," "QUJD" = false
  ∧ requestImage
      (refineRequest ("data:" +:+ "image/jpeg" +:+ ";base64," +:+ "QUJD")
         "" SQUARE)
    = Some (mkBlob (Some "QUJD") (Some "image/jpeg")).
Proof.
  split; [reflexivity|]. split; [reflexivity|]. split; [reflexivity|].
  apply (refineRequest_reads_data_url "image/jpeg" "QUJD" "" SQUARE);
    reflexivity.
Defined.

(** X15: for an image string that is not a data URL the request is still
    sent. Without ',' it carries no [data]. Without ';' its [mimeType] is
    not a media type: it is the empty string when the string has no ':',
    and otherwise the start of the string up to and including its first
    ':'. *)
Theorem refineRequest_malformed_image s instr ratio :
  (occurs "," s = false →
   ∃ m, requestImage (refineRequest s instr ratio) = Some (mkBlob None m))
  ∧ (occurs ";" s = false → occurs ":" s = false →
     ∃ d, requestImage (refineRequest s instr ratio)
          = Some (mkBlob d (Some "")))
  ∧ (∀ a b, occurs ";" s = false → s = a +:+ ":" +:+ b →
            occurs ":" a = false →
            ∃ d, requestImage (refineRequest s instr ratio)
                 = Some (mkBlob d (Some (a +:+ ":")))).
Proof.
  rewrite requestImage_refineRequest. split; [|split].
  - intros Hc. rewrite split_without by done. by eexists.
  - intros Hsemi Hcolon.
    rewrite (indexOf_without ";"), (indexOf_without ":") by done.
    change (-1 + 1)%Z with (Z.of_nat 0).
    rewrite js_substring_to_minus_one by lia.
    eexists. by destruct s.
  - intros a b Hsemi -> Ha.
    rewrite (indexOf_without ";") by done.
    change (":" +:+ b) with (String ":" b).
    rewrite (indexOf_at_first ":" a _ Ha).
    change (String ":" b) with (":" +:+ b).
    replace (Z.of_nat (String.length a) + 1)%Z
      with (Z.of_nat (String.length (a +:+ ":")))
      by (rewrite length_append; simpl; lia).
    rewrite js_substring_to_minus_one
      by (rewrite !length_append; simpl; lia).
    rewrite <- (append_assoc a ":" b).
    rewrite substring_prefix. by eexists.
Qed.

Lemma refineRequest_malformed_image_witness :
  occurs ";" "data:abc" = false
  ∧ occurs ":" "data" = false
  ∧ ∃ d, requestImage (refineRequest ("data" +:+ ":" +:+ "abc") "" SQUARE)
         = Some (mkBlob d (Some ("data" +:+ ":"))).
Proof.
  split; [reflexivity|]. split; [reflexivity|].
  destruct (refineRequest_malformed_image "data:abc" "" SQUARE)
    as (_ & _ & H).
  exact (H "data" "abc" eq_refl eq_refl eq_refl).
Defined.

(** ** The uploader *)

Lemma onDrop_enabled read files :
  ImageUploader.onDrop read false files = ImageUploader.processFiles read files.
Proof.
  unfold ImageUploader.onDrop. case_bool_decide as Hlen; [done|].
  destruct files; [done|]. simpl in Hlen. lia.
Qed.

Lemma processFiles_Some read files images :
  ImageUploader.processFiles read files = Some images
  ↔ ImageUploader.validFiles files ≠ []
    ∧ Forall2 (λ file img, read file = Some img)
        (ImageUploader.validFiles files) images.
Proof.
  unfold ImageUploader.processFiles. case_bool_decide as Hlen.
  - apply length_zero_iff_nil in Hlen. rewrite Hlen. split; [done|].
    by intros [? _].
  - rewrite mapM_Some. split; [|by intros [_ ?]].
    intros H. split; [|done]. intros Hnil. by rewrite Hnil in Hlen.
Qed.

(** X16: [processFiles] hands over one image per file whose type starts
    with "image/", in the order of the files, and only when there is at
    least one such file and every one of them could be read: other files
    are ignored, and a single image that fails to load keeps the whole
    selection from ever arriving. *)
Theorem processFiles_all_or_nothing read files :
  (∀ images,
     ImageUploader.processFiles read files = Some images
     ↔ ImageUploader.validFiles files ≠ []
       ∧ Forall2 (λ file img, read file = Some img)
           (ImageUploader.validFiles files) images)
  ∧ (∀ images,
       ImageUploader.processFiles read files = Some images →
       images ≠ [] ∧ length images = length (ImageUploader.validFiles files))
  ∧ (∀ file,
       file ∈ files →
       ImageUploader.startsWith (ImageUploader.type file) "image/" = true →
       read file = None →
       ImageUploader.processFiles read files = None)
  ∧ ImageUploader.processFiles read (ImageUploader.validFiles files)
    = ImageUploader.processFiles read files.
Proof.
  split; [intros images; apply processFiles_Some|].
  split.
  { intros images [Hne Hall]%processFiles_Some.
    apply Forall2_length in Hall. split; [|done].
    intros ->. destruct (ImageUploader.validFiles files); done. }
  split.
  { intros file Hin Himg Hread.
    destruct (ImageUploader.processFiles read files) as [images|] eqn:Hp;
      [|done].
    apply processFiles_Some in Hp as [_ Hall].
    assert (file ∈ ImageUploader.validFiles files) as Hv
      by (by apply list_elem_of_filter).
    apply list_elem_of_lookup_1 in Hv as [k Hk].
    destruct (Forall2_lookup_l _ _ _ _ _ Hall Hk) as (img & _ & Himg').
    congruence. }
  unfold ImageUploader.processFiles.
  replace (ImageUploader.validFiles (ImageUploader.validFiles files))
    with (ImageUploader.validFiles files); [done|].
  unfold ImageUploader.validFiles. symmetry. apply filter_all.
  intros f Hf. by apply list_elem_of_filter in Hf as [? _].
Qed.

Lemma original_handleImagesSelect randomUUID imgs st :
  original <$> queue (handleImagesSelect randomUUID imgs st)
  = (original <$> queue st) ++ imgs.
Proof.
  unfold handleImagesSelect. cbn [queue withQueue]. rewrite fmap_app. f_equal.
  rewrite <- (list_fmap_id imgs) at 2.
  apply (fmap_imap_original (λ x, x)).
Qed.

(** X17: a drop on the uploader changes the store only when the uploader
    is enabled, a dropped file is an image and every image could be read;
    then the queue gains one entry per image file, after the entries it
    had, in file order, each holding its image as [original]. *)
Theorem dropFiles_appends read randomUUID uploaderDisabled files st :
  let st' := dropFiles read randomUUID uploaderDisabled files st in
  (uploaderDisabled = true → st' = st)
  ∧ (ImageUploader.validFiles files = [] → st' = st)
  ∧ (Exists (λ file, read file = None) (ImageUploader.validFiles files) →
     st' = st)
  ∧ (∀ images,
       uploaderDisabled = false →
       ImageUploader.processFiles read files = Some images →
       original <$> queue st' = (original <$> queue st) ++ images
       ∧ length (queue st')
         = length (queue st) + length (ImageUploader.validFiles files)).
Proof.
  cbv zeta. unfold dropFiles. split; [by intros ->|].
  destruct uploaderDisabled; [done|]. rewrite onDrop_enabled.
  split.
  { intros Hnil. unfold ImageUploader.processFiles. by rewrite Hnil. }
  split.
  { intros Hex. unfold ImageUploader.processFiles.
    case_bool_decide; [done|]. by rewrite (mapM_None_2 _ _ Hex). }
  intros images _ Hp. rewrite Hp.
  split; [apply original_handleImagesSelect|].
  apply processFiles_Some in Hp as [_ Hall]. apply Forall2_length in Hall.
  unfold handleImagesSelect. cbn [queue withQueue].
  rewrite length_app, length_imap. lia.
Qed.

Lemma dropFiles_appends_witness :
  let files := [Demo.png; Demo.pdf; Demo.jpg] in
  (dropFiles Demo.reads Demo.uuids true files Sample.three = Sample.three)
  ∧ (dropFiles Demo.jpgFails Demo.uuids false files Sample.three = Sample.three)
  ∧ original <$> queue (dropFiles Demo.reads Demo.uuids false files initialState)
    = (original <$> queue initialState)
      ++ ["data:image/png;base64,QUJD"; "data:image/jpeg;base64,QUJD"].
Proof.
  destruct (dropFiles_appends Demo.reads Demo.uuids true
              [Demo.png; Demo.pdf; Demo.jpg] Sample.three) as (H1 & _).
  destruct (dropFiles_appends Demo.jpgFails Demo.uuids false
              [Demo.png; Demo.pdf; Demo.jpg] Sample.three) as (_ & _ & H2 & _).
  destruct (dropFiles_appends Demo.reads Demo.uuids false
              [Demo.png; Demo.pdf; Demo.jpg] initialState) as (_ & _ & _ & H3).
  split; [exact (H1 eq_refl)|].
  split.
  - apply H2. vm_compute. apply Exists_cons_tl, Exists_cons_hd. reflexivity.
  - exact (proj1 (H3 _ eq_refl eq_refl)).
Defined.

(** ** From a dropped file to the request *)

(** X18: an image file dropped on an enabled uploader while nothing waits
    in the queue, and read as the data URL of its type and payload, is
    what the next run sends: one request, whose inline image has that
    payload as [data] and the file's type as [mimeType]. *)
Theorem dropped_image_reaches_service oracle env read randomUUID file payload
    st n :
  isProcessing st = false →
  itemsToProcess st = [] →
  ImageUploader.startsWith (ImageUploader.type file) "image/" = true →
  occurs ";" (ImageUploader.type file) = false →
  occurs "," (ImageUploader.type file) = false →
  occurs "," payload = false →
  read file
  = Some ("data:" +:+ ImageUploader.type file +:+ ";base64," +:+ payload) →
  let st' := dropFiles read randomUUID false [file] st in
  let o := run oracle env (processQueue st') st' n in
  requestImage <$> requests (trace o)
  = [Some (mkBlob (Some payload) (Some (ImageUploader.type file)))].
Proof.
  intros Hst Hnone Himg Hsemi Hcomma Hpay Hread st' o. subst o st'.
  unfold dropFiles. rewrite onDrop_enabled.
  unfold ImageUploader.processFiles, ImageUploader.validFiles.
  rewrite filter_cons_True by done. rewrite filter_nil.
  rewrite bool_decide_eq_false_2 by done.
  cbn [mapM]. rewrite Hread. cbn [mbind option_bind mret option_ret].
  rewrite requests_processQueue by done.
  rewrite itemsToProcess_handleImagesSelect, Hnone. cbn [app imap fmap list_fmap].
  f_equal. unfold requestOf. cbn [original customPrompt aspectRatio
                                    handleImagesSelect withQueue].
  by apply refineRequest_reads_data_url_aux.
Qed.

Lemma dropped_image_reaches_service_witness :
  let st' := dropFiles Demo.reads Demo.uuids false [Demo.jpg] initialState in
  let o := run Sample.allSucceed quiet (processQueue st') st' 0 in
  isProcessing initialState = false
  ∧ itemsToProcess initialState = []
  ∧ ImageUploader.startsWith (ImageUploader.type Demo.jpg) "image/" = true
  ∧ Demo.reads Demo.jpg
    = Some ("data:" +:+ ImageUploader.type Demo.jpg +:+ ";base64," +:+ "QUJD")
  ∧ requestImage <$> requests (trace o)
    = [Some (mkBlob (Some "QUJD") (Some (ImageUploader.type Demo.jpg)))].
Proof.
  split; [reflexivity|]. split; [reflexivity|]. split; [reflexivity|].
  split; [reflexivity|].
  apply (dropped_image_reaches_service Sample.allSucceed quiet Demo.reads
           Demo.uuids Demo.jpg "QUJD" initialState 0); reflexivity.
Defined.

(** ** The counter of the navigation bar *)

(** X19: on a page nobody touches, when no entry is 'processing' at the
    start and every call of the run succeeds, every entry is 'success'
    after the run: the counter shows as many completed as there are
    entries. *)
Theorem all_success_counter oracle st n :
  isProcessing st = false →
  noneProcessing (queue st) →
  (∀ k, k < length (itemsToProcess st) →
        ∃ v, refined (oracle (n + k)) = Normal v) →
  let o := run oracle quiet (processQueue st) st n in
  (∀ i, i ∈ queue (final o) → status i = success)
  ∧ completedCount (final o) = length (queue (final o))
  ∧ length (queue (final o)) = length (queue st).
Proof.
  intros Hst Hno Hok o. subst o.
  assert (∀ i, i ∈ queue (final (run oracle quiet (processQueue st) st n)) →
               status i = success) as Hall.
  { intros i Hin. rewrite processQueue_quiet_queue in Hin by done.
    apply list_elem_of_fmap in Hin as (i0 & -> & Hi0).
    destruct (decide (id i0 ∈ id <$> itemsToProcess st)) as [Hsel|Hsel].
    - by apply turns_all_success.
    - rewrite turns_other by done.
      destruct (status i0) eqn:Hs; [| |done|].
      + destruct Hsel. apply list_elem_of_fmap_2. unfold itemsToProcess.
        apply list_elem_of_filter. split; [by left|done].
      + by destruct (Hno i0 Hi0).
      + destruct Hsel. apply list_elem_of_fmap_2. unfold itemsToProcess.
        apply list_elem_of_filter. split; [by right|done]. }
  split; [done|]. split.
  - unfold completedCount. by rewrite filter_all.
  - rewrite processQueue_quiet_queue by done. apply length_fmap.
Qed.

Lemma all_success_counter_witness :
  let st := Sample.retry in
  let o := run Sample.allSucceed quiet (processQueue st) st 0 in
  isProcessing st = false
  ∧ noneProcessing (queue st)
  ∧ (∀ k, k < length (itemsToProcess st) →
          ∃ v, refined (Sample.allSucceed (0 + k)) = Normal v)
  ∧ (∀ i, i ∈ queue (final o) → status i = success)
  ∧ completedCount (final o) = length (queue (final o))
  ∧ length (queue (final o)) = length (queue st).
Proof.
  assert (noneProcessing (queue Sample.retry)) as Hno.
  { intros i Hi. cbn in Hi.
    repeat (apply elem_of_cons in Hi as [->|Hi]; [done|]).
    by apply elem_of_nil in Hi. }
  assert (∀ k, k < length (itemsToProcess Sample.retry) →
               ∃ v, refined (Sample.allSucceed (0 + k)) = Normal v) as Hok.
  { intros k _. eexists. reflexivity. }
  split; [reflexivity|]. split; [exact Hno|]. split; [exact Hok|].
  exact (all_success_counter Sample.allSucceed Sample.retry 0 eq_refl Hno Hok).
Defined.
